(** * Fitness backend: Telegram initData verification and the workout store

    A shallow embedding of [index.js].  The file holds three near-duplicate
    revisions of the server, one after the other.  The development follows
    the second one (lines 244-520), the revision that has [safeEq],
    [toBase64Url] and the [maxAgeSec] parameter and whose reason codes
    ([empty_initData], [no_hash], [auth_date_expired], [hash_mismatch]) are
    the ones the specification uses.  The first and the third revision
    verify without an [auth_date] check and without the base64-url form
    (the first one derives the key with an HMAC keyed by ["WebAppData"]);
    their verifiers are not modelled.  The two workout handlers and
    [requireUser] are the same in all three revisions.

    Conventions.
    - A JavaScript string is represented by the bytes of its UTF-8 encoding
      (a Rocq [string]); this is what [Buffer.from] and [Hmac.update] see.
      Lengths and [slice] count bytes, which is the JavaScript count on
      ASCII text.
    - A [Buffer] is a [list Z] of 8-bit values.
    - A JavaScript number is a [jsnum]: an exact rational, NaN or an
      infinity; rounding of doubles and the sign of zero are not modelled.
    - [undefined] is [None] of an [option]; [null] is [JNull].
    - Functions of the host runtime that the source calls but does not
      define (URL query parsing, collation, trimming, case mapping, numeric
      parsing and printing, JSON parsing) are the members of the class
      [Host]; every theorem holds for every host.  [node_ascii] is a host
      used to run the code on concrete ASCII inputs.
    - SHA-256 and HMAC are defined in full, so that concrete signatures are
      the ones Node computes.
    - The relational store is a record of three tables; each call to it may
      fail, as decided by a fault oracle, and a failed call changes
      nothing.  Ids come from one counter, which stands for the fresh
      UUIDs of the real store. *)

From Stdlib Require Import ZArith QArith String Ascii OrderedTypeEx.
From stdpp Require Import base list gmap strings sorting pretty.

#[local] Set Warnings "-register-all".

(** ** Bytes and strings *)

Definition Buffer := list Z.

(** [Buffer.from(s)] for a string [s]: its UTF-8 bytes. *)
Definition Buffer_from (s : string) : Buffer :=
  map (λ c, Z.of_N (N_of_ascii c)) (list_ascii_of_string s).

Definition LF : string := String (ascii_of_nat 10) EmptyString.

(** [parts.join(sep)] *)
Fixpoint join (sep : string) (parts : list string) : string :=
  match parts with
  | [] => EmptyString
  | [p] => p
  | p :: rest => p +:+ sep +:+ join sep rest
  end.

(** [s.slice(0, n)] *)
Definition slice0 (n : nat) (s : string) : string := String.substring 0 n s.

(** [a.sort(cmp)] is stable; [sort_by le] inserts each element before the
    first element of the sorted tail that it does not exceed, which is the
    result of every stable sort when the comparator is consistent. *)
Fixpoint insert_by {A} (le : A → A → bool) (x : A) (l : list A) : list A :=
  match l with
  | [] => [x]
  | y :: l' => if le x y then x :: y :: l' else y :: insert_by le x l'
  end.

Definition sort_by {A} (le : A → A → bool) (l : list A) : list A :=
  foldr (insert_by le) [] l.

(** ** SHA-256 and HMAC-SHA-256 (FIPS 180-4, RFC 2104) *)

Module SHA256.
Local Open Scope Z_scope.

Definition mask32 (x : Z) : Z := Z.land x 0xFFFFFFFF.
Definition add32 (x y : Z) : Z := mask32 (x + y).
Definition rotr (n x : Z) : Z :=
  Z.lor (Z.shiftr x n) (mask32 (Z.shiftl x (32 - n))).

Definition Ch (x y z : Z) : Z :=
  Z.lxor (Z.land x y) (Z.land (Z.lxor x 0xFFFFFFFF) z).
Definition Maj (x y z : Z) : Z :=
  Z.lxor (Z.lxor (Z.land x y) (Z.land x z)) (Z.land y z).
Definition Sigma0 (x : Z) : Z :=
  Z.lxor (Z.lxor (rotr 2 x) (rotr 13 x)) (rotr 22 x).
Definition Sigma1 (x : Z) : Z :=
  Z.lxor (Z.lxor (rotr 6 x) (rotr 11 x)) (rotr 25 x).
Definition sigma0 (x : Z) : Z :=
  Z.lxor (Z.lxor (rotr 7 x) (rotr 18 x)) (Z.shiftr x 3).
Definition sigma1 (x : Z) : Z :=
  Z.lxor (Z.lxor (rotr 17 x) (rotr 19 x)) (Z.shiftr x 10).

(** The constants are the first 32 bits of the fractional parts of the
    cube roots (for [K]) and square roots (for [H0]) of the first primes. *)
Definition is_prime (n : Z) : bool :=
  forallb (λ d, negb (n mod d =? 0)) (Z.of_nat <$> seq 2 (Z.to_nat n - 2)).

Definition primes : list Z := filter (λ n, is_prime n) (Z.of_nat <$> seq 2 310).

(** The largest [r] below [2 ^ bits] with [r ^ k <= n], found bit by bit. *)
Fixpoint iroot (k n : Z) (bits : nat) (r : Z) : Z :=
  match bits with
  | O => r
  | S bits' =>
      let r' := r + 2 ^ Z.of_nat bits' in
      iroot k n bits' (if (r' ^ k <=? n) then r' else r)
  end.

Definition frac_root (k p : Z) : Z :=
  mask32 (iroot k (p * 2 ^ (32 * k)) 40 0).

Definition K : list Z := Eval vm_compute in map (frac_root 3) primes.

Definition H0 : list Z := Eval vm_compute in map (frac_root 2) (take 8 primes).

(** The [w] low bytes of [x], most significant first. *)
Fixpoint be_bytes (w : nat) (x : Z) : list Z :=
  match w with
  | O => []
  | S w' => Z.land (Z.shiftr x (8 * Z.of_nat w')) 0xFF :: be_bytes w' x
  end.

Definition pad (msg : list Z) : list Z :=
  let len := Z.of_nat (length msg) in
  msg ++ [0x80] ++ replicate (Z.to_nat ((55 - len) mod 64)) 0
      ++ be_bytes 8 (8 * len).

Fixpoint words (n : nat) (bs : list Z) : list Z :=
  match n, bs with
  | S n', a :: b :: c :: d :: rest =>
      (Z.shiftl a 24 + Z.shiftl b 16 + Z.shiftl c 8 + d) :: words n' rest
  | _, _ => []
  end.

(** The message schedule, newest word first: the head is W[t-1]. *)
Fixpoint schedule (n : nat) (rev_w : list Z) : list Z :=
  match n with
  | O => rev_w
  | S n' =>
      let w2 := nth 1 rev_w 0 in
      let w7 := nth 6 rev_w 0 in
      let w15 := nth 14 rev_w 0 in
      let w16 := nth 15 rev_w 0 in
      schedule n'
        (add32 (add32 (sigma1 w2) w7) (add32 (sigma0 w15) w16) :: rev_w)
  end.

Definition round (st : list Z) (kw : Z * Z) : list Z :=
  match st with
  | [a; b; c; d; e; f; g; h] =>
      let t1 :=
        add32 (add32 (add32 h (Sigma1 e)) (add32 (Ch e f g) kw.1)) kw.2 in
      let t2 := add32 (Sigma0 a) (Maj a b c) in
      [add32 t1 t2; a; b; c; add32 d t1; e; f; g]
  | _ => st
  end.

Definition compress (h block : list Z) : list Z :=
  let w := rev (schedule 48 (rev (words 16 block))) in
  let st := fold_left round (combine K w) h in
  map (λ p, add32 p.1 p.2) (combine h st).

Fixpoint blocks (n : nat) (h bs : list Z) : list Z :=
  match n with
  | O => h
  | S n' =>
      match bs with
      | [] => h
      | _ => blocks n' (compress h (take 64 bs)) (drop 64 bs)
      end
  end.

Definition digest (msg : Buffer) : Buffer :=
  let p := pad msg in
  flat_map (be_bytes 4) (blocks (length p) H0 p).

Definition hmac (key msg : Buffer) : Buffer :=
  let k0 := if (64 <? Z.of_nat (length key)) then digest key else key in
  let k := k0 ++ replicate (64 - length k0) 0 in
  digest (map (Z.lxor 0x5c) k ++ digest (map (Z.lxor 0x36) k ++ msg)).

End SHA256.

(** ** Encodings of a buffer *)

Definition hex_digit (n : Z) : ascii :=
  ascii_of_N (Z.to_N (if (n <? 10)%Z then 48 + n else 87 + n)%Z).

(** [buf.toString("hex")] *)
Fixpoint to_hex (buf : Buffer) : string :=
  match buf with
  | [] => EmptyString
  | b :: rest =>
      String (hex_digit (Z.shiftr b 4))
        (String (hex_digit (Z.land b 15)) (to_hex rest))
  end.

Definition b64_digit (n : Z) : ascii :=
  ascii_of_N (Z.to_N
    (if (n <? 26) then 65 + n
     else if (n <? 52) then 71 + n
     else if (n <? 62) then n - 4
     else if (n =? 62) then 43 else 47)%Z).

(** [buf.toString("base64")] *)
Fixpoint to_base64 (buf : Buffer) : string :=
  match buf with
  | [] => EmptyString
  | [a] =>
      String (b64_digit (Z.shiftr a 2))
        (String (b64_digit (Z.shiftl (Z.land a 3) 4)) "==")
  | [a; b] =>
      String (b64_digit (Z.shiftr a 2))
        (String (b64_digit (Z.lor (Z.shiftl (Z.land a 3) 4) (Z.shiftr b 4)))
           (String (b64_digit (Z.shiftl (Z.land b 15) 2)) "="))
  | a :: b :: c :: rest =>
      String (b64_digit (Z.shiftr a 2))
        (String (b64_digit (Z.lor (Z.shiftl (Z.land a 3) 4) (Z.shiftr b 4)))
           (String (b64_digit (Z.lor (Z.shiftl (Z.land b 15) 2) (Z.shiftr c 6)))
              (String (b64_digit (Z.land c 63)) (to_base64 rest))))
  end.

(** [s.replace(/c/g, d)] for single characters [c] and [d]. *)
Fixpoint replace_char (c d : ascii) (s : string) : string :=
  match s with
  | EmptyString => EmptyString
  | String x rest =>
      String (if Ascii.eqb x c then d else x) (replace_char c d rest)
  end.

(** [s.replace(/=+$/g, empty)]: drop the trailing run of [=]. *)
Fixpoint strip_trailing_eq (s : string) : string :=
  match s with
  | EmptyString => EmptyString
  | String x rest =>
      match strip_trailing_eq rest with
      | EmptyString => if Ascii.eqb x "=" then EmptyString else String x EmptyString
      | r => String x r
      end
  end.

(** [toBase64Url], lines 279-285. *)
Definition toBase64Url (buf : Buffer) : string :=
  strip_trailing_eq (replace_char "/" "_" (replace_char "+" "-" (to_base64 buf))).

(** ** Constant-time comparison (lines 268-277) *)

(** [crypto.timingSafeEqual(a, b)]: throws a [RangeError] ([None]) when the
    byte lengths differ. *)
Definition timingSafeEqual (a b : Buffer) : option bool :=
  if decide (length a = length b) then Some (bool_decide (a = b)) else None.

Definition safeEq (a b : string) : bool :=
  let ab := Buffer_from a in
  let bb := Buffer_from b in
  if negb (length ab =? length bb) then false
  else match timingSafeEqual ab bb with
       | Some r => r
       | None => false
       end.

(** ** JavaScript values *)

Inductive jsnum :=
  | JFin (q : Q)
  | JNaN
  | JPosInf
  | JNegInf.

(** [Number.isFinite(n)] *)
Definition isFinite (n : jsnum) : bool :=
  match n with JFin _ => true | _ => false end.

(** The values [JSON.parse] and [express.json()] produce.  [undefined] is
    not one of them: a missing property is [None] of [option JSValue]. *)
Inductive JSValue :=
  | JNull
  | JBool (b : bool)
  | JNum (n : jsnum)
  | JStr (s : string)
  | JArr (items : list JSValue)
  | JObj (fields : list (string * JSValue)).

(** The JavaScript falsy test [!s] on a string. *)
Definition is_empty (s : string) : bool :=
  match s with EmptyString => true | _ => false end.

(** [v.k] for a non-null [v] and a key [k] that is neither an index nor
    [length]: an own property of an object, [undefined] on anything else. *)
Fixpoint assoc (fields : list (string * JSValue)) (k : string) : option JSValue :=
  match fields with
  | [] => None
  | (k', v) :: rest => if String.eqb k' k then Some v else assoc rest k
  end.

Definition own_prop (v : JSValue) (k : string) : option JSValue :=
  match v with JObj fields => assoc fields k | _ => None end.

(** [v?.k] *)
Definition opt_prop (v : JSValue) (k : string) : option JSValue :=
  match v with JNull => None | _ => own_prop v k end.

(** [!!v], with [None] for [undefined]. *)
Definition truthy (v : option JSValue) : bool :=
  match v with
  | None | Some JNull => false
  | Some (JBool b) => b
  | Some (JNum (JFin q)) => negb (Qeq_bool q 0)
  | Some (JNum JNaN) => false
  | Some (JNum _) => true
  | Some (JStr s) => negb (is_empty s)
  | Some (JArr _) | Some (JObj _) => true
  end.

(** [v ?? d] *)
Definition nullish_or (v : option JSValue) (d : JSValue) : JSValue :=
  match v with
  | None | Some JNull => d
  | Some x => x
  end.

(** ** The host runtime *)

Class Host := {
  (** the entries of [new URLSearchParams(s)], in order *)
  URLSearchParams : string → list (string * string);
  (** [a.localeCompare(b)]: negative, zero or positive *)
  localeCompare : string → string → Z;
  (** [s.trim()] *)
  trim : string → string;
  (** [s.toLowerCase()] *)
  toLowerCase : string → string;
  (** [Number(s)] for a string [s] *)
  StringToNumber : string → jsnum;
  (** [String(n)] for a number [n] *)
  NumberToString : jsnum → string;
  (** [JSON.parse(s)]; [None] when it throws a [SyntaxError] *)
  JSON_parse : string → option JSValue;
}.

Section Runtime.
Context `{Host}.

(** [String(v)] *)
Fixpoint ToString (v : JSValue) : string :=
  match v with
  | JNull => "null"
  | JBool true => "true"
  | JBool false => "false"
  | JNum n => NumberToString n
  | JStr s => s
  | JArr items =>
      join "," (map (λ x, match x with JNull => EmptyString | _ => ToString x end) items)
  | JObj _ => "[object Object]"
  end.

(** [Number(v)]: an array is converted through its string, a plain object
    through ["[object Object]"], which is not a numeral. *)
Definition ToNumber (v : JSValue) : jsnum :=
  match v with
  | JNull => JFin 0
  | JBool true => JFin 1
  | JBool false => JFin 0
  | JNum n => n
  | JStr s => StringToNumber s
  | JArr _ => StringToNumber (ToString v)
  | JObj _ => JNaN
  end.

(** ** URL query parameters *)

(** [params.get(k)]: the first value of [k], [None] for [null]. *)
Fixpoint params_get (params : list (string * string)) (k : string) : option string :=
  match params with
  | [] => None
  | (k', v) :: rest => if String.eqb k' k then Some v else params_get rest k
  end.

(** [params.delete(k)] removes every entry of [k]. *)
Definition params_delete (params : list (string * string)) (k : string) :
    list (string * string) :=
  filter (λ p, p.1 ≠ k) params.

(** ** verifyTelegramInitData (lines 287-347) *)

Record debug_preview := {
  incomingPreview : string;
  computedHexPreview : string;
  computedB64Preview : string;
}.

Inductive verdict :=
  | VOk
  | VFail (reason : string) (debug : option debug_preview).

(** The [auth_date] check: [authDateStr] is truthy, its number is finite
    and [now - authDate > maxAgeSec]. *)
Definition auth_date_expired (params : list (string * string))
    (maxAgeSec now : Z) : bool :=
  match params_get params "auth_date" with
  | None => false
  | Some authDateStr =>
      if is_empty authDateStr then false
      else match StringToNumber authDateStr with
           | JFin authDate =>
               negb (Qle_bool (inject_Z now - authDate) (inject_Z maxAgeSec))
           | _ => false
           end
  end.

(** The data-check string: entries sorted by key, [k=v] joined by newlines. *)
Definition dataCheckString (params : list (string * string)) : string :=
  let pairs := sort_by (λ a b, (localeCompare a.1 b.1 <=? 0)%Z) params in
  join LF (map (λ p, p.1 +:+ "=" +:+ p.2) pairs).

(** [now] is [Math.floor(Date.now() / 1000)]; [botToken] is
    [process.env.BOT_TOKEN], [None] when unset. *)
Definition verifyTelegramInitData (initData : string) (botToken : option string)
    (maxAgeSec now : Z) : verdict :=
  if is_empty initData then VFail "empty_initData" None
  else match botToken with
  | None => VFail "empty_botToken" None
  | Some botToken =>
  if is_empty botToken then VFail "empty_botToken" None
  else
    let token := trim botToken in
    let params := URLSearchParams initData in
    match params_get params "hash" with
    | None => VFail "no_hash" None
    | Some hash =>
    if is_empty hash then VFail "no_hash" None
    else
      let params := params_delete params "hash" in
      if auth_date_expired params maxAgeSec now
      then VFail "auth_date_expired" None
      else
        let secretKey := SHA256.digest (Buffer_from token) in
        let hmacBuf :=
          SHA256.hmac secretKey (Buffer_from (dataCheckString params)) in
        let computedHex := to_hex hmacBuf in
        let computedB64Url := toBase64Url hmacBuf in
        let incoming := trim hash in
        let incomingLower := toLowerCase incoming in
        let ok :=
          safeEq computedHex incomingLower
          || safeEq computedB64Url incoming
          || safeEq computedB64Url incomingLower in
        if negb ok then
          VFail "hash_mismatch"
            (Some {| incomingPreview := slice0 10 incoming;
                     computedHexPreview := slice0 10 computedHex;
                     computedB64Preview := slice0 10 computedB64Url |})
        else VOk
    end
  end.

(** The HMAC the verifier computes for [initData] under [token]. *)
Definition computed_mac (initData token : string) : Buffer :=
  SHA256.hmac (SHA256.digest (Buffer_from (trim token)))
    (Buffer_from
       (dataCheckString (params_delete (URLSearchParams initData) "hash"))).

(** The three comparisons of the verifier, as equalities of strings. *)
Definition hash_accepted (initData token hash : string) : Prop :=
  toLowerCase (trim hash) = to_hex (computed_mac initData token)
  ∨ trim hash = toBase64Url (computed_mac initData token)
  ∨ toLowerCase (trim hash) = toBase64Url (computed_mac initData token).

(** The default of [maxAgeSec]: [24 * 60 * 60]. *)
Definition default_maxAgeSec : Z := 24 * 60 * 60.

(** [getTelegramUserFromInitData], lines 349-358; [null] is [JNull]. *)
Definition getTelegramUserFromInitData (initData : string) : JSValue :=
  match params_get (URLSearchParams initData) "user" with
  | None => JNull
  | Some userStr =>
      if is_empty userStr then JNull
      else match JSON_parse userStr with
           | Some v => v
           | None => JNull
           end
  end.

(** ** The [requireUser] middleware (lines 386-398) *)

(** Either the response the middleware sends, or [next()] with
    [req.telegramId] set. *)
Inductive auth_gate :=
  | Rejected (status : nat) (error : string) (reason : option string)
  | Next (telegramId : JSValue).

(** [header] is [req.headers["x-telegram-initdata"]]. *)
Definition requireUser (header : option string) (botToken : option string)
    (now : Z) : auth_gate :=
  match header with
  | None => Rejected 401 "x-telegram-initdata header required" None
  | Some initData =>
  if is_empty initData
  then Rejected 401 "x-telegram-initdata header required" None
  else
    match verifyTelegramInitData initData botToken default_maxAgeSec now with
    | VFail reason _ => Rejected 401 "Invalid initData" (Some reason)
    | VOk =>
        let tgUser := getTelegramUserFromInitData initData in
        match opt_prop tgUser "id" with
        | Some id => if truthy (Some id) then Next id
                     else Rejected 401 "No user" None
        | None => Rejected 401 "No user" None
        end
    end
  end.

End Runtime.

(** ** A host for ASCII input

    [node_ascii] agrees with Node on the inputs the examples below use:
    ASCII strings, decimal integer numerals, and JSON texts built from
    objects, arrays, strings without [\u] escapes, integers, booleans and
    [null].  Its [localeCompare] is the code-point order, which is what the
    root collation gives on lower-case ASCII letters and on equal strings.
    Outside that domain it is not a model of Node, and no theorem depends
    on how it behaves there. *)

Module AsciiHost.

Fixpoint split_on (c : ascii) (s : string) : list string :=
  match s with
  | EmptyString => [EmptyString]
  | String x rest =>
      if Ascii.eqb x c then EmptyString :: split_on c rest
      else match split_on c rest with
           | [] => [String x EmptyString]
           | p :: ps => String x p :: ps
           end
  end.

(** The part before the first [c], and the part after it if there is one. *)
Fixpoint cut_at (c : ascii) (s : string) : string * option string :=
  match s with
  | EmptyString => (EmptyString, None)
  | String x rest =>
      if Ascii.eqb x c then (EmptyString, Some rest)
      else let '(a, b) := cut_at c rest in (String x a, b)
  end.

Definition hex_val (c : ascii) : option N :=
  let n := N_of_ascii c in
  if ((48 <=? n) && (n <=? 57))%N then Some (n - 48)%N
  else if ((65 <=? n) && (n <=? 70))%N then Some (n - 55)%N
  else if ((97 <=? n) && (n <=? 102))%N then Some (n - 87)%N
  else None.

(** Form decoding: [+] is a space, [%XY] is the byte [XY]. *)
Fixpoint form_decode (s : string) : string :=
  match s with
  | EmptyString => EmptyString
  | String c t =>
      if Ascii.eqb c "%" then
        match t with
        | String a (String b rest) =>
            match hex_val a, hex_val b with
            | Some x, Some y => String (ascii_of_N (16 * x + y)) (form_decode rest)
            | _, _ => String c (form_decode t)
            end
        | _ => String c (form_decode t)
        end
      else String (if Ascii.eqb c "+" then " "%char else c) (form_decode t)
  end.

Definition parse_query (s : string) : list (string * string) :=
  let s := match s with String "?" rest => rest | _ => s end in
  map (λ piece,
         let '(k, v) := cut_at "=" piece in
         (form_decode k, form_decode (default EmptyString v)))
      (filter (λ piece, piece ≠ EmptyString) (split_on "&" s)).

Definition codepointCompare (a b : string) : Z :=
  match String.compare a b with
  | Lt => (-1)%Z
  | Eq => 0%Z
  | Gt => 1%Z
  end.

Definition is_space (c : ascii) : bool :=
  let n := N_of_ascii c in (((9 <=? n) && (n <=? 13)) || (n =? 32))%N.

Fixpoint trim_start (s : string) : string :=
  match s with
  | EmptyString => EmptyString
  | String c rest => if is_space c then trim_start rest else s
  end.

Fixpoint trim_end (s : string) : string :=
  match s with
  | EmptyString => EmptyString
  | String c rest =>
      match trim_end rest with
      | EmptyString => if is_space c then EmptyString else String c EmptyString
      | r => String c r
      end
  end.

Definition ascii_trim (s : string) : string := trim_end (trim_start s).

Definition lower_char (c : ascii) : ascii :=
  let n := N_of_ascii c in
  if ((65 <=? n) && (n <=? 90))%N then ascii_of_N (n + 32) else c.

Fixpoint ascii_lower (s : string) : string :=
  match s with
  | EmptyString => EmptyString
  | String c rest => String (lower_char c) (ascii_lower rest)
  end.

Definition digit_val (c : ascii) : option Z :=
  let n := N_of_ascii c in
  if ((48 <=? n) && (n <=? 57))%N then Some (Z.of_N (n - 48)) else None.

(** The value of a non-empty run of decimal digits. *)
Fixpoint digits_val (acc : Z) (s : string) : option Z :=
  match s with
  | EmptyString => Some acc
  | String c rest =>
      match digit_val c with
      | Some d => digits_val (10 * acc + d) rest
      | None => None
      end
  end.

Definition unsigned_val (s : string) : option Z :=
  if is_empty s then None else digits_val 0 s.

Definition string_to_number (s : string) : jsnum :=
  let t := ascii_trim s in
  if is_empty t then JFin 0
  else if String.eqb t "Infinity" || String.eqb t "+Infinity" then JPosInf
  else if String.eqb t "-Infinity" then JNegInf
  else
    match t with
    | String "-" rest =>
        match unsigned_val rest with
        | Some n => JFin (inject_Z (- n))
        | None => JNaN
        end
    | String "+" rest =>
        match unsigned_val rest with
        | Some n => JFin (inject_Z n)
        | None => JNaN
        end
    | _ =>
        match unsigned_val t with
        | Some n => JFin (inject_Z n)
        | None => JNaN
        end
    end.

Definition number_to_string (n : jsnum) : string :=
  match n with
  | JFin q =>
      if (Qnum q mod Zpos (Qden q) =? 0)%Z
      then pretty (Qnum q / Zpos (Qden q))%Z
      else "NaN"
  | JNaN => "NaN"
  | JPosInf => "Infinity"
  | JNegInf => "-Infinity"
  end.

(** *** A JSON reader *)

Definition dquote : ascii := ascii_of_nat 34.

Fixpoint skip_ws (s : string) : string :=
  match s with
  | String c rest =>
      if (Ascii.eqb c " " || Ascii.eqb c "009" || Ascii.eqb c "010"
          || Ascii.eqb c "013")%char
      then skip_ws rest else s
  | EmptyString => s
  end.

(** The text up to the closing quote, and what follows the quote. *)
Fixpoint string_body (s : string) : option (string * string) :=
  match s with
  | EmptyString => None
  | String c rest =>
      if Ascii.eqb c dquote then Some (EmptyString, rest)
      else if Ascii.eqb c "\" then
        match rest with
        | String e rest' =>
            let unescaped :=
              if Ascii.eqb e "n" then Some "010"%char
              else if Ascii.eqb e "t" then Some "009"%char
              else if Ascii.eqb e "r" then Some "013"%char
              else if Ascii.eqb e dquote || Ascii.eqb e "\" || Ascii.eqb e "/"
              then Some e else None in
            match unescaped, string_body rest' with
            | Some x, Some (body, after) => Some (String x body, after)
            | _, _ => None
            end
        | EmptyString => None
        end
      else if (N_of_ascii c <? 32)%N then None
      else match string_body rest with
           | Some (body, after) => Some (String c body, after)
           | None => None
           end
  end.

(** A quoted string at the head of [s]. *)
Definition quoted (s : string) : option (string * string) :=
  match s with
  | String c rest => if Ascii.eqb c dquote then string_body rest else None
  | EmptyString => None
  end.

(** The leading run of digits of [s] and the rest. *)
Fixpoint digit_run (s : string) : string * string :=
  match s with
  | String c rest =>
      match digit_val c with
      | Some _ => let '(d, after) := digit_run rest in (String c d, after)
      | None => (EmptyString, s)
      end
  | EmptyString => (EmptyString, s)
  end.

(** [o[k] = v] on the fields of an object. *)
Fixpoint set_field (k : string) (v : JSValue) (fields : list (string * JSValue)) :
    list (string * JSValue) :=
  match fields with
  | [] => [(k, v)]
  | (k', v') :: rest =>
      if String.eqb k' k then (k, v) :: rest else (k', v') :: set_field k v rest
  end.

Definition starts_with (p s : string) : option string :=
  if String.prefix p s
  then Some (String.substring (String.length p) (String.length s - String.length p) s)
  else None.

Fixpoint value (fuel : nat) (s : string) : option (JSValue * string) :=
  match fuel with
  | O => None
  | S fuel =>
      let s := skip_ws s in
      match s with
      | String "[" rest =>
          match skip_ws rest with
          | String "]" after => Some (JArr [], after)
          | _ => items fuel [] rest
          end
      | String "{" rest =>
          match skip_ws rest with
          | String "}" after => Some (JObj [], after)
          | _ => members fuel [] rest
          end
      | String "-" rest =>
          let '(d, after) := digit_run rest in
          match unsigned_val d with
          | Some n => Some (JNum (JFin (inject_Z (- n))), after)
          | None => None
          end
      | _ =>
          match quoted s, starts_with "null" s, starts_with "true" s,
                starts_with "false" s with
          | Some (body, after), _, _, _ => Some (JStr body, after)
          | _, Some after, _, _ => Some (JNull, after)
          | _, _, Some after, _ => Some (JBool true, after)
          | _, _, _, Some after => Some (JBool false, after)
          | _, _, _, _ =>
              let '(d, after) := digit_run s in
              match unsigned_val d with
              | Some n => Some (JNum (JFin (inject_Z n)), after)
              | None => None
              end
          end
      end
  end
with items (fuel : nat) (acc : list JSValue) (s : string) :
    option (JSValue * string) :=
  match fuel with
  | O => None
  | S fuel =>
      match value fuel s with
      | Some (v, after) =>
          match skip_ws after with
          | String "," rest => items fuel (acc ++ [v]) rest
          | String "]" rest => Some (JArr (acc ++ [v]), rest)
          | _ => None
          end
      | None => None
      end
  end
with members (fuel : nat) (acc : list (string * JSValue)) (s : string) :
    option (JSValue * string) :=
  match fuel with
  | O => None
  | S fuel =>
      match quoted (skip_ws s) with
      | Some (k, after) =>
          match skip_ws after with
          | String ":" rest =>
              match value fuel rest with
              | Some (v, after) =>
                  match skip_ws after with
                  | String "," rest => members fuel (set_field k v acc) rest
                  | String "}" rest => Some (JObj (set_field k v acc), rest)
                  | _ => None
                  end
              | None => None
              end
          | _ => None
          end
      | None => None
      end
  end.

Definition json_parse (s : string) : option JSValue :=
  match value (S (String.length s)) s with
  | Some (v, after) => if is_empty (skip_ws after) then Some v else None
  | None => None
  end.

End AsciiHost.

Definition node_ascii : Host := {|
  URLSearchParams := AsciiHost.parse_query;
  localeCompare := AsciiHost.codepointCompare;
  trim := AsciiHost.ascii_trim;
  toLowerCase := AsciiHost.ascii_lower;
  StringToNumber := AsciiHost.string_to_number;
  NumberToString := AsciiHost.number_to_string;
  JSON_parse := AsciiHost.json_parse;
|}.

(** ** The store

    The relational store behind the [supabase] client: three tables, kept
    as lists of rows in insertion order, and the counter that generates
    ids.  The generated ids are positive; [sentinel_id] stands for the
    all-zero UUID the read handler uses as a filter that matches nothing. *)

Definition sentinel_id : nat := 0.

Record workout := {
  w_id : nat;
  user_id : Z;
  workout_date : string;
  title : JSValue;
  notes : JSValue;
}.

Record exercise := {
  e_id : nat;
  workout_id : nat;
  name : option JSValue;
  position : nat;
}.

Record set_entry := {
  s_id : nat;
  exercise_id : nat;
  set_no : nat;
  reps : jsnum;
  weight_kg : jsnum;
}.

Record store := {
  workouts : list workout;
  workout_exercises : list exercise;
  workout_sets : list set_entry;
  next_id : nat;
}.

(** The calls the two handlers make; a fault oracle says which of them
    fail, and with which error message. *)
Inductive call :=
  | UpsertWorkout
  | FetchOldExercises
  | DeleteSets
  | DeleteExercises
  | InsertExercises
  | InsertSets
  | FetchWorkout
  | FetchExercises
  | FetchSets.

Definition faults := call → option string.

Definition no_faults : faults := λ _, None.

(** [.eq("user_id", uid).eq("workout_date", d)] on [workouts] *)
Definition select_workouts (s : store) (uid : Z) (d : string) : list workout :=
  filter (λ w, user_id w = uid ∧ workout_date w = d) (workouts s).

(** [.upsert({...}, { onConflict: "user_id,workout_date" }).select().single()]:
    the row of [(uid, d)] keeps its id and takes the new title and notes;
    without such a row a new one is appended. *)
Definition upsert_workout (s : store) (uid : Z) (d : string) (t n : JSValue) :
    workout * store :=
  match select_workouts s uid d with
  | w :: _ =>
      let w' := {| w_id := w_id w; user_id := uid; workout_date := d;
                   title := t; notes := n |} in
      (w',
       {| workouts :=
            (λ x, if decide (user_id x = uid ∧ workout_date x = d)
                  then {| w_id := w_id x; user_id := uid; workout_date := d;
                          title := t; notes := n |}
                  else x) <$> workouts s;
          workout_exercises := workout_exercises s;
          workout_sets := workout_sets s;
          next_id := next_id s |})
  | [] =>
      let w' := {| w_id := next_id s; user_id := uid; workout_date := d;
                   title := t; notes := n |} in
      (w',
       {| workouts := workouts s ++ [w'];
          workout_exercises := workout_exercises s;
          workout_sets := workout_sets s;
          next_id := S (next_id s) |})
  end.

(** [.from("workout_exercises").select().eq("workout_id", wid)] *)
Definition select_exercises (s : store) (wid : nat) : list exercise :=
  filter (λ e, workout_id e = wid) (workout_exercises s).

(** [.from("workout_sets").select().in("exercise_id", ids)] *)
Definition select_sets (s : store) (ids : list nat) : list set_entry :=
  filter (λ x, exercise_id x ∈ ids) (workout_sets s).

(** [.from("workout_sets").delete().in("exercise_id", ids)] *)
Definition delete_sets (s : store) (ids : list nat) : store :=
  {| workouts := workouts s;
     workout_exercises := workout_exercises s;
     workout_sets := filter (λ x, exercise_id x ∉ ids) (workout_sets s);
     next_id := next_id s |}.

(** [.from("workout_exercises").delete().eq("workout_id", wid)] *)
Definition delete_exercises (s : store) (wid : nat) : store :=
  {| workouts := workouts s;
     workout_exercises := filter (λ e, workout_id e ≠ wid) (workout_exercises s);
     workout_sets := workout_sets s;
     next_id := next_id s |}.

(** A row of [workout_exercises] before the store gives it an id. *)
Record new_exercise := {
  ne_workout_id : nat;
  ne_name : option JSValue;
  ne_position : nat;
}.

(** A row of [workout_sets] before the store gives it an id. *)
Record new_set := {
  ns_exercise_id : nat;
  ns_set_no : nat;
  ns_reps : jsnum;
  ns_weight_kg : jsnum;
}.

(** [.insert(rows).select()]: the inserted rows, in the order of [rows]. *)
Definition insert_exercises (s : store) (rows : list new_exercise) :
    list exercise * store :=
  let inserted :=
    imap (λ i r, {| e_id := next_id s + i; workout_id := ne_workout_id r;
                    name := ne_name r; position := ne_position r |}) rows in
  (inserted,
   {| workouts := workouts s;
      workout_exercises := workout_exercises s ++ inserted;
      workout_sets := workout_sets s;
      next_id := next_id s + length rows |}).

(** [.from("workout_sets").insert(rows)] *)
Definition insert_sets (s : store) (rows : list new_set) : store :=
  {| workouts := workouts s;
     workout_exercises := workout_exercises s;
     workout_sets :=
       workout_sets s ++
       imap (λ i r, {| s_id := next_id s + i; exercise_id := ns_exercise_id r;
                       set_no := ns_set_no r; reps := ns_reps r;
                       weight_kg := ns_weight_kg r |}) rows;
     next_id := next_id s + length rows |}.

(** ** GET /api/workouts (lines 401-446) *)

Record exercise_view := {
  v_id : nat;
  v_name : option JSValue;
  v_position : nat;
  v_sets : list set_entry;
}.

Record workout_view := {
  v_workout : workout;
  v_exercises : list exercise_view;
}.

Inductive get_response :=
  | GetError (status : nat) (error : string)
  | GetNull
  | GetOk (view : workout_view).

(** [.maybeSingle()]: no row is [null], one row is that row, several rows
    are an error of the store. *)
Definition maybeSingle (rows : list workout) : string + option workout :=
  match rows with
  | [] => inr None
  | [w] => inr (Some w)
  | _ => inl "JSON object requested, multiple (or no) rows returned"%string
  end.

(** The ids the set query filters on. *)
Definition set_filter_ids (exIds : list nat) : list nat :=
  if decide (length exIds = 0) then [sentinel_id] else exIds.

(** The [byExercise] map: each set is pushed on the array of its exercise. *)
Definition group_by_exercise (sets : list set_entry) : gmap nat (list set_entry) :=
  foldl (λ m x, <[exercise_id x := default [] (m !! exercise_id x) ++ [x]]> m)
        ∅ sets.

(** [telegramId] is [req.telegramId], here the integer id of a Telegram
    user; [date] is [req.query.date]. *)
Definition get_workouts (f : faults) (s : store) (telegramId : Z)
    (date : option string) : get_response :=
  match date with
  | None => GetError 400 "date=YYYY-MM-DD required"
  | Some date =>
  if is_empty date then GetError 400 "date=YYYY-MM-DD required"
  else
    match f FetchWorkout with
    | Some wErr => GetError 500 wErr
    | None =>
    match maybeSingle (select_workouts s telegramId date) with
    | inl wErr => GetError 500 wErr
    | inr None => GetNull
    | inr (Some w) =>
        match f FetchExercises with
        | Some exErr => GetError 500 exErr
        | None =>
            let ex := sort_by (λ a b, position a <=? position b)
                        (select_exercises s (w_id w)) in
            let exIds := e_id <$> ex in
            match f FetchSets with
            | Some sErr => GetError 500 sErr
            | None =>
                let sets := sort_by (λ a b, set_no a <=? set_no b)
                              (select_sets s (set_filter_ids exIds)) in
                let byExercise := group_by_exercise sets in
                GetOk {| v_workout := w;
                         v_exercises :=
                           (λ e, {| v_id := e_id e; v_name := name e;
                                    v_position := position e;
                                    v_sets := default [] (byExercise !! e_id e) |})
                           <$> ex |}
            end
        end
    end
    end
  end.

(** ** POST /api/workouts (lines 449-515) *)

(** [req.body], destructured. *)
Record post_body := {
  req_workout_date : option string;
  req_title : option JSValue;
  req_notes : option JSValue;
  req_exercises : option JSValue;
}.

(** [PostThrew]: a [TypeError] escapes the handler and no response is
    sent. *)
Inductive post_response :=
  | PostError (status : nat) (error : string)
  | PostOk (workout_id : nat)
  | PostThrew.

Section Replace.
Context `{Host}.

(** One element of [exRows]; reading [e.name] throws when [e] is [null]. *)
Definition exRow (wid idx : nat) (e : JSValue) : option new_exercise :=
  match e with
  | JNull => None
  | _ => Some {| ne_workout_id := wid; ne_name := own_prop e "name";
                 ne_position := idx + 1 |}
  end.

Definition exRows (wid : nat) (exercises : list JSValue) :
    option (list new_exercise) :=
  mapM id (imap (exRow wid) exercises).

(** [Array.isArray(ex.sets) ? ex.sets : []] *)
Definition setsArr (ex : JSValue) : list JSValue :=
  match own_prop ex "sets" with
  | Some (JArr sets) => sets
  | _ => []
  end.

(** One pushed row; reading [s.reps] throws when [s] is [null]. *)
Definition setRow (exId idx : nat) (s : JSValue) : option new_set :=
  match s with
  | JNull => None
  | _ => Some {| ns_exercise_id := exId; ns_set_no := idx + 1;
                 ns_reps := ToNumber (nullish_or (own_prop s "reps") (JNum (JFin 0)));
                 ns_weight_kg :=
                   ToNumber (nullish_or (own_prop s "weight_kg") (JNum (JFin 0))) |}
  end.

(** The loop over [exercises] that fills [setRows]; [insertedEx[i]] is
    read at every index, so a missing row throws as well. *)
Definition setRows (exercises : list JSValue) (insertedEx : list exercise) :
    option (list new_set) :=
  (λ rows, concat rows) <$>
    mapM id
      (imap (λ i ex,
               match insertedEx !! i with
               | None => None
               | Some row => mapM id (imap (setRow (e_id row)) (setsArr ex))
               end)
            exercises).

(** The handler returns its response and the store it leaves.  The results
    of the fetch of the old exercises and of the two deletes are not
    inspected by the source: [oldEx] is [null] when the fetch fails, and a
    failed delete leaves the store as it was. *)
Definition post_workouts (f : faults) (s : store) (telegramId : Z)
    (body : post_body) : post_response * store :=
  match req_workout_date body with
  | None => (PostError 400 "workout_date required", s)
  | Some date =>
  if is_empty date then (PostError 400 "workout_date required", s)
  else
    match req_exercises body with
    | Some (JArr exercises) =>
        match f UpsertWorkout with
        | Some wErr => (PostError 500 wErr, s)
        | None =>
            let '(w, s1) :=
              upsert_workout s telegramId date
                (nullish_or (req_title body) JNull)
                (nullish_or (req_notes body) JNull) in
            let oldEx :=
              match f FetchOldExercises with
              | Some _ => None
              | None => Some (select_exercises s1 (w_id w))
              end in
            let oldIds := e_id <$> default [] oldEx in
            let s2 :=
              if decide (length oldIds = 0) then s1
              else match f DeleteSets with
                   | Some _ => s1
                   | None => delete_sets s1 oldIds
                   end in
            let s3 :=
              match f DeleteExercises with
              | Some _ => s2
              | None => delete_exercises s2 (w_id w)
              end in
            match exRows (w_id w) exercises with
            | None => (PostThrew, s3)
            | Some rows =>
                match f InsertExercises with
                | Some insExErr => (PostError 500 insExErr, s3)
                | None =>
                    let '(insertedEx, s4) := insert_exercises s3 rows in
                    match setRows exercises insertedEx with
                    | None => (PostThrew, s4)
                    | Some srows =>
                        if decide (length srows = 0) then (PostOk (w_id w), s4)
                        else match f InsertSets with
                             | Some insSErr => (PostError 500 insSErr, s4)
                             | None => (PostOk (w_id w), insert_sets s4 srows)
                             end
                    end
                end
            end
        end
    | _ => (PostError 400 "exercises[] required", s)
    end
  end.

End Replace.

(** ** Specification vocabulary for the store *)

(** The integrity the store maintains by itself: primary keys are unique
    and were generated by the counter, [(user_id, workout_date)] is unique,
    and the references of exercises and sets point at generated ids. *)
Record store_wf (s : store) : Prop := {
  wf_next : 0 < next_id s;
  wf_workout_ids : NoDup (w_id <$> workouts s);
  wf_workout_keys : NoDup ((λ w, (user_id w, workout_date w)) <$> workouts s);
  wf_workout_fresh : Forall (λ w, w_id w < next_id s) (workouts s);
  wf_exercise_ids : NoDup (e_id <$> workout_exercises s);
  wf_exercise_fresh :
    Forall (λ e, e_id e < next_id s ∧ workout_id e < next_id s)
           (workout_exercises s);
  wf_set_refs :
    Forall (λ x, 0 < exercise_id x < next_id s) (workout_sets s);
}.

(** The rows of one tenant: the workouts of [uid], the exercises of those
    workouts, and the sets of those exercises. *)
Definition tenant_workouts (s : store) (uid : Z) : list workout :=
  filter (λ w, user_id w = uid) (workouts s).

Definition tenant_exercises (s : store) (uid : Z) : list exercise :=
  filter (λ e, workout_id e ∈ w_id <$> tenant_workouts s uid)
         (workout_exercises s).

Definition tenant_sets (s : store) (uid : Z) : list set_entry :=
  filter (λ x, exercise_id x ∈ e_id <$> tenant_exercises s uid)
         (workout_sets s).

Definition tenant_rows (s : store) (uid : Z) :
    list workout * list exercise * list set_entry :=
  (tenant_workouts s uid, tenant_exercises s uid, tenant_sets s uid).

(** The nested view of a workout: its exercises by position, each with
    its own sets by set number. *)
Definition workout_view_of (s : store) (w : workout) : workout_view :=
  {| v_workout := w;
     v_exercises :=
       (λ e, {| v_id := e_id e; v_name := name e; v_position := position e;
                v_sets :=
                  sort_by (λ a b, set_no a <=? set_no b)
                    (filter (λ x, exercise_id x = e_id e) (workout_sets s)) |})
       <$> sort_by (λ a b, position a <=? position b)
             (select_exercises s (w_id w)) |}.

(** A workout id that belongs to [uid]. *)
Definition owned (s : store) (uid : Z) (wid : nat) : Prop :=
  ∃ w, w ∈ workouts s ∧ w_id w = wid ∧ user_id w = uid.

(** [s'] is well formed and holds the same rows as [s] for every tenant
    other than [uid]. *)
Definition isolated (uid : Z) (s s' : store) : Prop :=
  store_wf s' ∧ ∀ u', u' ≠ uid → tenant_rows s' u' = tenant_rows s u'.



Section Expected.
Context `{Host}.



(** The rows the handler builds from a non-null exercise and a non-null
    set. *)
Definition ex_row (wid idx : nat) (e : JSValue) : new_exercise :=
  {| ne_workout_id := wid; ne_name := own_prop e "name";
     ne_position := idx + 1 |}.

Definition set_row (exId idx : nat) (s : JSValue) : new_set :=
  {| ns_exercise_id := exId; ns_set_no := idx + 1;
     ns_reps := ToNumber (nullish_or (own_prop s "reps") (JNum (JFin 0)));
     ns_weight_kg :=
       ToNumber (nullish_or (own_prop s "weight_kg") (JNum (JFin 0))) |}.


End Expected.

(** ** Example data *)

Definition empty_store : store :=
  {| workouts := []; workout_exercises := []; workout_sets := [];
     next_id := 1 |}.

(** [[{name: "Bench", sets: [{reps: 5, weight_kg: 100}, {reps: 5, weight_kg: 100}]}]] *)
Definition bench : list JSValue :=
  [JObj [("name"%string, JStr "Bench");
         ("sets"%string,
          JArr [JObj [("reps"%string, JNum (JFin (inject_Z 5)));
                      ("weight_kg"%string, JNum (JFin (inject_Z 100)))];
                JObj [("reps"%string, JNum (JFin (inject_Z 5)));
                      ("weight_kg"%string, JNum (JFin (inject_Z 100)))]])]].

(** [[{name: "Squat", sets: [{reps: "abc"}, {}]}, {name: "Plank"}]] *)
Definition squat : list JSValue :=
  [JObj [("name"%string, JStr "Squat");
         ("sets"%string,
          JArr [JObj [("reps"%string, JStr "abc")]; JObj []])];
   JObj [("name"%string, JStr "Plank")]].

Definition body_of (date : string) (exercises : list JSValue) : post_body :=
  {| req_workout_date := Some date; req_title := None; req_notes := None;
     req_exercises := Some (JArr exercises) |}.

(** The store after user 8 logged the bench workout. *)
Definition store_of_8 : store :=
  (post_workouts (H := node_ascii) no_faults empty_store 8
     (body_of "2024-01-05" bench)).2.

(** The store after user 7 logged a workout without exercises. *)
Definition store_of_7 : store :=
  (post_workouts (H := node_ascii) no_faults empty_store 7
     (body_of "2024-01-05" [])).2.

(** The oracle under which only the delete of the old sets fails. *)
Definition delete_sets_fails : faults :=
  λ c, match c with DeleteSets => Some "boom"%string | _ => None end.

(** * Properties *)

(** ** Stable insertion sort *)

Section SortFacts.
Context {A : Type} (le : A → A → bool).

Let R : relation A := λ a b, le a b = true.

Lemma insert_by_perm x l : insert_by le x l ≡ₚ x :: l.
Proof.
  induction l as [|y l IH]; simpl; [done|].
  destruct (le x y); [done|].
  rewrite IH. apply Permutation_swap.
Qed.

Lemma sort_by_perm l : sort_by le l ≡ₚ l.
Proof.
  induction l as [|x l IH]; simpl; [done|].
  rewrite insert_by_perm. by f_equiv.
Qed.

Lemma sort_by_length l : length (sort_by le l) = length l.
Proof. by rewrite sort_by_perm. Qed.

Lemma elem_of_sort_by x l : x ∈ sort_by le l ↔ x ∈ l.
Proof. by rewrite sort_by_perm. Qed.


Hypothesis le_total : ∀ a b, le a b = false → le b a = true.
Hypothesis le_trans : ∀ a b c, le a b = true → le b c = true → le a c = true.

Lemma insert_by_sorted x l :
  StronglySorted R l → StronglySorted R (insert_by le x l).
Proof.
  induction 1 as [|y l Hl IH Hy]; simpl.
  - repeat constructor.
  - destruct (le x y) eqn:Hxy.
    + constructor; [by constructor|].
      constructor; [done|].
      eapply Forall_impl; [exact Hy|]. intros z Hz. by eapply le_trans.
    + constructor; [done|].
      rewrite insert_by_perm. constructor; [by apply le_total|done].
Qed.

Lemma sort_by_sorted l : StronglySorted R (sort_by le l).
Proof.
  induction l as [|x l IH]; simpl; [constructor|].
  by apply insert_by_sorted.
Qed.

(** Filtering commutes with inserting into a sorted list. *)
Lemma filter_insert_by (P : A → Prop) `{!∀ x, Decision (P x)} x l :
  StronglySorted R l →
  filter P (insert_by le x l) =
    if decide (P x) then insert_by le x (filter P l) else filter P l.
Proof.
  induction 1 as [|y l Hl IH Hy]; simpl.
  - rewrite filter_cons, filter_nil. by destruct (decide (P x)).
  - destruct (le x y) eqn:Hxy.
    + rewrite filter_cons. destruct (decide (P x)) as [Hx|Hx]; [|done].
      rewrite filter_cons. destruct (decide (P y)) as [Hpy|Hpy].
      * simpl. by rewrite Hxy.
      * clear IH. induction l as [|z l IHl]; [done|].
        apply Forall_cons in Hy as [Hyz Hy].
        apply StronglySorted_inv in Hl as [Hl Hz].
        rewrite filter_cons. destruct (decide (P z)).
        -- simpl. by rewrite (le_trans _ _ _ Hxy Hyz).
        -- by apply IHl.
    + rewrite !filter_cons. destruct (decide (P y)).
      * rewrite IH. destruct (decide (P x)); [|done]. simpl. by rewrite Hxy.
      * by rewrite IH.
Qed.

Lemma filter_sort_by (P : A → Prop) `{!∀ x, Decision (P x)} l :
  filter P (sort_by le l) = sort_by le (filter P l).
Proof.
  induction l as [|x l IH]; simpl; [done|].
  rewrite filter_insert_by by apply sort_by_sorted.
  rewrite filter_cons. destruct (decide (P x)); simpl; by rewrite IH.
Qed.

(** Two orderings of the same elements agree when the order separates
    them. *)
Lemma sort_by_perm_eq l1 l2 :
  (∀ a b, a ∈ l1 → b ∈ l1 → le a b = true → le b a = true → a = b) →
  l1 ≡ₚ l2 → sort_by le l1 = sort_by le l2.
Proof.
  intros Hanti Hperm.
  apply (StronglySorted_unique_strong R); [|apply sort_by_sorted..|].
  - intros a b Ha Hb. apply Hanti.
    + by rewrite sort_by_perm in Ha.
    + rewrite sort_by_perm in Hb. by rewrite Hperm.
  - by rewrite !sort_by_perm.
Qed.

End SortFacts.

(** ** The comparison [safeEq] *)

Lemma Buffer_from_inj a b : Buffer_from a = Buffer_from b → a = b.
Proof.
  unfold Buffer_from. intros Heq.
  rewrite <- (string_of_list_ascii_of_string a),
          <- (string_of_list_ascii_of_string b).
  f_equal. revert Heq.
  generalize (list_ascii_of_string a) (list_ascii_of_string b).
  intros l. induction l as [|x l IH]; intros [|y k]; simpl; try done.
  intros [= Hxy Hlk]. f_equal; [|by apply IH].
  apply N2Z.inj in Hxy.
  by rewrite <- (ascii_N_embedding x), <- (ascii_N_embedding y), Hxy.
Qed.


Lemma safeEq_true a b : safeEq a b = true ↔ a = b.
Proof.
  unfold safeEq, timingSafeEqual.
  destruct (length (Buffer_from a) =? length (Buffer_from b)) eqn:Hlen; simpl.
  - apply Nat.eqb_eq in Hlen. rewrite decide_True by done.
    rewrite bool_decide_eq_true. split; [apply Buffer_from_inj|by intros ->].
  - split; [done|]. intros ->. by rewrite Nat.eqb_refl in Hlen.
Qed.

Lemma safeEq_false a b : safeEq a b = false ↔ a ≠ b.
Proof. rewrite <- safeEq_true. by destruct (safeEq a b). Qed.



Lemma is_empty_false s : s ≠ EmptyString → is_empty s = false.
Proof. by destruct s. Qed.

Lemma is_empty_true s : is_empty s = true ↔ s = EmptyString.
Proof. by destruct s. Qed.

(** ** Query parameters *)

Section ParamFacts.
Context `{Host}.

Lemma params_get_elem ps k v : params_get ps k = Some v → (k, v) ∈ ps.
Proof.
  induction ps as [|[k' v'] ps IH]; simpl; [done|].
  destruct (String.eqb k' k) eqn:Hk.
  - apply String.eqb_eq in Hk as ->. intros [= ->]. left.
  - intros Hget. right. by apply IH.
Qed.

Lemma params_get_None ps k : params_get ps k = None ↔ k ∉ ps.*1.
Proof.
  induction ps as [|[k' v'] ps IH]; simpl.
  - split; [|done]. intros _. apply not_elem_of_nil.
  - rewrite not_elem_of_cons. destruct (String.eqb k' k) eqn:Hk.
    + apply String.eqb_eq in Hk as ->. split; [done|]. by intros [? _].
    + apply String.eqb_neq in Hk. rewrite IH.
      split; [intros ?; split; [congruence|done]|by intros [_ ?]].
Qed.

Lemma params_get_NoDup ps k v :
  NoDup ps.*1 → (k, v) ∈ ps → params_get ps k = Some v.
Proof.
  induction ps as [|[k' v'] ps IH]; simpl; intros Hnd Hin.
  - by apply elem_of_nil in Hin.
  - apply NoDup_cons in Hnd as [Hk' Hnd].
    apply elem_of_cons in Hin as [[= <- <-]|Hin].
    + by rewrite String.eqb_refl.
    + destruct (String.eqb k' k) eqn:Hk; [|by apply IH].
      apply String.eqb_eq in Hk as ->. destruct Hk'.
      apply list_elem_of_fmap. by exists (k, v).
Qed.

(** With distinct keys, [get] does not depend on the order of the
    entries. *)
Lemma params_get_perm ps1 ps2 k :
  NoDup ps1.*1 → ps1 ≡ₚ ps2 → params_get ps1 k = params_get ps2 k.
Proof.
  intros Hnd Hperm.
  assert (NoDup ps2.*1) as Hnd2 by by rewrite <- Hperm.
  destruct (params_get ps1 k) as [v|] eqn:H1.
  - symmetry. apply params_get_NoDup; [done|].
    rewrite <- Hperm. by apply params_get_elem.
  - symmetry. apply params_get_None. rewrite <- Hperm.
    by apply params_get_None.
Qed.

Lemma params_get_delete_ne ps k k' :
  k ≠ k' → params_get (params_delete ps k') k = params_get ps k.
Proof.
  intros Hne. unfold params_delete.
  induction ps as [|[k1 v1] ps IH]; simpl; [done|].
  rewrite filter_cons. simpl. destruct (decide (k1 ≠ k')) as [Hk|Hk]; simpl.
  - by rewrite IH.
  - apply dec_stable in Hk as ->.
    assert (String.eqb k' k = false) as -> by (apply String.eqb_neq; congruence).
    done.
Qed.

Lemma params_delete_perm ps1 ps2 k :
  ps1 ≡ₚ ps2 → params_delete ps1 k ≡ₚ params_delete ps2 k.
Proof. intros Hperm. unfold params_delete. by rewrite Hperm. Qed.

Lemma params_delete_keys ps k : (params_delete ps k).*1 `sublist_of` ps.*1.
Proof. unfold params_delete. apply fmap_sublist, sublist_filter. Qed.

Lemma params_delete_NoDup ps k : NoDup ps.*1 → NoDup (params_delete ps k).*1.
Proof. intros Hnd. eapply sublist_NoDup; [done|apply params_delete_keys]. Qed.

End ParamFacts.

(** ** verifyTelegramInitData *)

Section VerifierFacts.
Context `{Host}.

(** Past the three emptiness checks the verdict is decided by the
    [auth_date] check and then by the three comparisons. *)
Lemma verify_unfold initData token maxAgeSec now hash :
  initData ≠ EmptyString → token ≠ EmptyString → hash ≠ EmptyString →
  params_get (URLSearchParams initData) "hash" = Some hash →
  verifyTelegramInitData initData (Some token) maxAgeSec now =
    if auth_date_expired (params_delete (URLSearchParams initData) "hash")
         maxAgeSec now
    then VFail "auth_date_expired" None
    else if safeEq (to_hex (computed_mac initData token)) (toLowerCase (trim hash))
            || safeEq (toBase64Url (computed_mac initData token)) (trim hash)
            || safeEq (toBase64Url (computed_mac initData token))
                 (toLowerCase (trim hash))
    then VOk
    else VFail "hash_mismatch"
           (Some {| incomingPreview := slice0 10 (trim hash);
                    computedHexPreview :=
                      slice0 10 (to_hex (computed_mac initData token));
                    computedB64Preview :=
                      slice0 10 (toBase64Url (computed_mac initData token)) |}).
Proof.
  intros Hi Ht Hh Hget. unfold verifyTelegramInitData, computed_mac.
  rewrite (is_empty_false _ Hi), (is_empty_false _ Ht), Hget,
    (is_empty_false _ Hh).
  destruct (auth_date_expired _ _ _); [done|].
  cbv zeta. by destruct (_ || _ || _).
Qed.

Lemma verify_unexpired_iff initData token maxAgeSec now hash :
  initData ≠ EmptyString → token ≠ EmptyString → hash ≠ EmptyString →
  params_get (URLSearchParams initData) "hash" = Some hash →
  auth_date_expired (params_delete (URLSearchParams initData) "hash")
    maxAgeSec now = false →
  verifyTelegramInitData initData (Some token) maxAgeSec now = VOk
  ↔ hash_accepted initData token hash.
Proof.
  intros Hi Ht Hh Hget Hexp.
  rewrite (verify_unfold _ _ _ _ hash), Hexp by done.
  unfold hash_accepted.
  destruct (safeEq (to_hex _) _) eqn:E1;
    [apply safeEq_true in E1|apply safeEq_false in E1];
  (destruct (safeEq (toBase64Url _) (trim hash)) eqn:E2;
    [apply safeEq_true in E2|apply safeEq_false in E2]);
  (destruct (safeEq (toBase64Url _) (toLowerCase _)) eqn:E3;
    [apply safeEq_true in E3|apply safeEq_false in E3]);
  simpl; split; try done; auto.
  intros [?|[?|?]]; congruence.
Qed.

(** The verdict [auth_date_expired] is only produced by the [auth_date]
    check. *)
Lemma verify_expired_inv initData botToken maxAgeSec now d :
  verifyTelegramInitData initData botToken maxAgeSec now
    = VFail "auth_date_expired" d →
  auth_date_expired (params_delete (URLSearchParams initData) "hash")
    maxAgeSec now = true.
Proof.
  unfold verifyTelegramInitData.
  destruct (is_empty initData); [done|].
  destruct botToken as [token|]; [|done].
  destruct (is_empty token); [done|].
  destruct (params_get _ "hash") as [hash|]; [|done].
  destruct (is_empty hash); [done|].
  destruct (auth_date_expired _ _ _); [done|].
  cbv zeta. by destruct (negb _).
Qed.

Lemma auth_date_expired_perm ps1 ps2 maxAgeSec now :
  NoDup ps1.*1 → ps1 ≡ₚ ps2 →
  auth_date_expired ps1 maxAgeSec now = auth_date_expired ps2 maxAgeSec now.
Proof.
  intros Hnd Hperm. unfold auth_date_expired.
  by rewrite (params_get_perm ps1 ps2).
Qed.

Lemma dataCheckString_perm ps1 ps2 :
  (∀ a b c, (localeCompare a b <= 0 → localeCompare b c <= 0 →
             localeCompare a c <= 0)%Z) →
  (∀ a b, (0 < localeCompare a b → localeCompare b a <= 0)%Z) →
  NoDup ps1.*1 →
  (∀ a b, a ∈ ps1.*1 → b ∈ ps1.*1 →
          (localeCompare a b <= 0)%Z → (localeCompare b a <= 0)%Z → a = b) →
  ps1 ≡ₚ ps2 →
  dataCheckString ps1 = dataCheckString ps2.
Proof.
  intros Htrans Htotal Hnd Hanti Hperm. unfold dataCheckString.
  f_equal. f_equal. apply sort_by_perm_eq; [| |clear Hperm|done].
  - intros a b Hab. apply Z.leb_le. apply Z.leb_gt in Hab.
    by apply Htotal.
  - intros a b c Hab%Z.leb_le Hbc%Z.leb_le. apply Z.leb_le. by eapply Htrans.
  - intros [k1 v1] [k2 v2] Ha Hb Hab%Z.leb_le Hba%Z.leb_le. simpl in *.
    assert (k1 = k2) as ->.
    { apply Hanti; [| |done..]; apply list_elem_of_fmap; eexists (_, _); eauto. }
    f_equal.
    apply (params_get_NoDup _ _ _ Hnd) in Ha, Hb. congruence.
Qed.

(** C1 (as amended): when the comparator is consistent, no key occurs
    twice and the comparator separates the keys, two inputs whose fields
    are permutations of each other get the same verdict. *)
Theorem verify_order_independent (i1 i2 : string) botToken maxAgeSec now :
  (∀ a b c, (localeCompare a b <= 0 → localeCompare b c <= 0 →
             localeCompare a c <= 0)%Z) →
  (∀ a b, (0 < localeCompare a b → localeCompare b a <= 0)%Z) →
  i1 ≠ EmptyString → i2 ≠ EmptyString →
  NoDup (URLSearchParams i1).*1 →
  (∀ a b, a ∈ (URLSearchParams i1).*1 → b ∈ (URLSearchParams i1).*1 →
          (localeCompare a b <= 0)%Z → (localeCompare b a <= 0)%Z → a = b) →
  URLSearchParams i1 ≡ₚ URLSearchParams i2 →
  verifyTelegramInitData i1 botToken maxAgeSec now
  = verifyTelegramInitData i2 botToken maxAgeSec now.
Proof.
  intros Htrans Htotal H1 H2 Hnd Hanti Hperm.
  unfold verifyTelegramInitData.
  rewrite (is_empty_false _ H1), (is_empty_false _ H2).
  destruct botToken as [token|]; [|done].
  destruct (is_empty token); [done|].
  rewrite <- (params_get_perm _ _ "hash" Hnd Hperm).
  destruct (params_get _ "hash") as [hash|]; [|done].
  destruct (is_empty hash); [done|].
  assert (NoDup (params_delete (URLSearchParams i1) "hash").*1) as Hnd'
    by by apply params_delete_NoDup.
  assert (params_delete (URLSearchParams i1) "hash"
          ≡ₚ params_delete (URLSearchParams i2) "hash") as Hperm'
    by by apply params_delete_perm.
  rewrite <- (auth_date_expired_perm _ _ _ _ Hnd' Hperm').
  assert (dataCheckString (params_delete (URLSearchParams i1) "hash")
          = dataCheckString (params_delete (URLSearchParams i2) "hash")) as <-;
    [|done].
  apply dataCheckString_perm; [done..| |done].
  intros a b Ha Hb.
  apply Hanti; eapply elem_of_sublist; eauto using params_delete_keys.
Qed.



(** C10: an [auth_date] that is empty or whose number is not finite never
    gives [auth_date_expired]; the verdict is then decided by the hash
    alone, so a matching hash is accepted. *)
Theorem malformed_auth_date_not_expired initData botToken maxAgeSec now
    authDateStr :
  params_get (URLSearchParams initData) "auth_date" = Some authDateStr →
  authDateStr = EmptyString ∨ isFinite (StringToNumber authDateStr) = false →
  (∀ d, verifyTelegramInitData initData botToken maxAgeSec now
        ≠ VFail "auth_date_expired" d)
  ∧ (∀ token hash,
       botToken = Some token →
       initData ≠ EmptyString → token ≠ EmptyString → hash ≠ EmptyString →
       params_get (URLSearchParams initData) "hash" = Some hash →
       (verifyTelegramInitData initData botToken maxAgeSec now = VOk
        ↔ hash_accepted initData token hash)).
Proof.
  intros Hdate Hbad.
  assert (auth_date_expired (params_delete (URLSearchParams initData) "hash")
            maxAgeSec now = false) as Hexp.
  { unfold auth_date_expired. rewrite params_get_delete_ne, Hdate by done.
    destruct Hbad as [->|Hfin]; [done|].
    destruct (is_empty authDateStr); [done|].
    by destruct (StringToNumber authDateStr). }
  split.
  - intros d Hv. apply verify_expired_inv in Hv. congruence.
  - intros token hash -> Hi Ht Hh Hget. by apply verify_unexpired_iff.
Qed.

(** C4 (as amended): after an accepted signature the middleware answers
    401 [No user], without a reason code, when the [user] field is absent
    or does not parse, and otherwise hands on exactly the [id] of the
    parsed [user] when that id is truthy. *)
Theorem requireUser_after_verify initData botToken now :
  verifyTelegramInitData initData botToken default_maxAgeSec now = VOk →
  (params_get (URLSearchParams initData) "user" = None
   ∨ (∃ userStr, params_get (URLSearchParams initData) "user" = Some userStr
                 ∧ JSON_parse userStr = None) →
   requireUser (Some initData) botToken now = Rejected 401 "No user" None)
  ∧ (∀ userStr user id,
       params_get (URLSearchParams initData) "user" = Some userStr →
       userStr ≠ EmptyString →
       JSON_parse userStr = Some user →
       opt_prop user "id" = Some id → truthy (Some id) = true →
       requireUser (Some initData) botToken now = Next id)
  ∧ (∀ id,
       requireUser (Some initData) botToken now = Next id →
       ∃ userStr user,
         params_get (URLSearchParams initData) "user" = Some userStr
         ∧ JSON_parse userStr = Some user
         ∧ own_prop user "id" = Some id).
Proof.
  intros Hok.
  assert (is_empty initData = false) as Hne.
  { unfold verifyTelegramInitData in Hok. by destruct (is_empty initData). }
  unfold requireUser, getTelegramUserFromInitData. rewrite Hne, Hok.
  split; [|split].
  - intros [->|(userStr & -> & Hparse)]; [done|].
    destruct (is_empty userStr); [done|]. by rewrite Hparse.
  - intros userStr user id -> Hu -> Hid Hty.
    rewrite (is_empty_false _ Hu), Hid. by rewrite Hty.
  - intros id.
    destruct (params_get _ "user") as [userStr|] eqn:Huser; [|done].
    destruct (is_empty userStr); [done|].
    destruct (JSON_parse userStr) as [user|] eqn:Hparse; [|done].
    destruct (opt_prop user "id") as [id'|] eqn:Hid; [|done].
    destruct (truthy (Some id')); [|done].
    intros [= ->]. exists userStr, user. split; [done|]. split; [done|].
    by destruct user.
Qed.

End VerifierFacts.

(** ** The verifier on concrete inputs *)

Lemma codepointCompare_trans a b c :
  (AsciiHost.codepointCompare a b <= 0)%Z →
  (AsciiHost.codepointCompare b c <= 0)%Z →
  (AsciiHost.codepointCompare a c <= 0)%Z.
Proof.
  unfold AsciiHost.codepointCompare.
  destruct (String.compare a b) eqn:Hab; [| |lia].
  - apply String.compare_eq_iff in Hab as ->. done.
  - destruct (String.compare b c) eqn:Hbc; [| |lia].
    + apply String.compare_eq_iff in Hbc as <-. by rewrite Hab.
    + intros _ _.
      apply String_as_OT.cmp_lt in Hab, Hbc.
      pose proof (String_as_OT.lt_trans _ _ _ Hab Hbc) as Hac.
      apply String_as_OT.cmp_lt in Hac.
      unfold String_as_OT.cmp in Hac. by rewrite Hac.
Qed.

Lemma codepointCompare_total a b :
  (0 < AsciiHost.codepointCompare a b)%Z →
  (AsciiHost.codepointCompare b a <= 0)%Z.
Proof.
  unfold AsciiHost.codepointCompare.
  rewrite (String.compare_antisym b a).
  destruct (String.compare a b); simpl; lia.
Qed.

Lemma codepointCompare_antisym a b :
  (AsciiHost.codepointCompare a b <= 0)%Z →
  (AsciiHost.codepointCompare b a <= 0)%Z → a = b.
Proof.
  unfold AsciiHost.codepointCompare.
  rewrite (String.compare_antisym b a).
  destruct (String.compare a b) eqn:Hab; simpl; [|lia..].
  intros _ _. by apply String.compare_eq_iff.
Qed.

(** C1, counterexample: two inputs with the same fields in a different
    order, one accepted and one rejected; the key [a] occurs twice and the
    stable sort keeps the two values in their input order. *)
Lemma repeated_key_order_matters :
  URLSearchParams (Host := node_ascii)
    "a=1&a=2&hash=a78719ffd1a25dadd1131d19a53924edae3c2ab5b66aa94e26921706e205d85c"
  ≡ₚ URLSearchParams (Host := node_ascii)
    "a=2&a=1&hash=a78719ffd1a25dadd1131d19a53924edae3c2ab5b66aa94e26921706e205d85c"
  ∧ verifyTelegramInitData (H := node_ascii)
      "a=1&a=2&hash=a78719ffd1a25dadd1131d19a53924edae3c2ab5b66aa94e26921706e205d85c"
      (Some "12345:TOKEN"%string) 86400 0 = VOk
  ∧ verifyTelegramInitData (H := node_ascii)
      "a=2&a=1&hash=a78719ffd1a25dadd1131d19a53924edae3c2ab5b66aa94e26921706e205d85c"
      (Some "12345:TOKEN"%string) 86400 0
    = VFail "hash_mismatch"
        (Some {| incomingPreview := "a78719ffd1";
                 computedHexPreview := "dbb46bfd2e";
                 computedB64Preview := "27Rr_S5vdN" |}).
Proof.
  split; [vm_compute; apply Permutation_swap|].
  split; vm_compute; reflexivity.
Qed.

(** C1, witness. *)
Lemma verify_order_independent_witness :
  NoDup (URLSearchParams (Host := node_ascii)
    "b=2&a=1&hash=6283712782d98f3e32141c38c0242dd6d4165e286d7199b882bc35b7f0e8cf47").*1
  ∧ URLSearchParams (Host := node_ascii)
      "b=2&a=1&hash=6283712782d98f3e32141c38c0242dd6d4165e286d7199b882bc35b7f0e8cf47"
    ≡ₚ URLSearchParams (Host := node_ascii)
      "hash=6283712782d98f3e32141c38c0242dd6d4165e286d7199b882bc35b7f0e8cf47&a=1&b=2"
  ∧ verifyTelegramInitData (H := node_ascii)
      "b=2&a=1&hash=6283712782d98f3e32141c38c0242dd6d4165e286d7199b882bc35b7f0e8cf47"
      (Some "12345:TOKEN"%string) 86400 0
    = verifyTelegramInitData (H := node_ascii)
      "hash=6283712782d98f3e32141c38c0242dd6d4165e286d7199b882bc35b7f0e8cf47&a=1&b=2"
      (Some "12345:TOKEN"%string) 86400 0.
Proof.
  assert (NoDup (URLSearchParams (Host := node_ascii)
    "b=2&a=1&hash=6283712782d98f3e32141c38c0242dd6d4165e286d7199b882bc35b7f0e8cf47").*1)
    as Hnd.
  { apply (bool_decide_unpack _). vm_compute. exact I. }
  assert (URLSearchParams (Host := node_ascii)
      "b=2&a=1&hash=6283712782d98f3e32141c38c0242dd6d4165e286d7199b882bc35b7f0e8cf47"
    ≡ₚ URLSearchParams (Host := node_ascii)
      "hash=6283712782d98f3e32141c38c0242dd6d4165e286d7199b882bc35b7f0e8cf47&a=1&b=2")
    as Hperm.
  { vm_compute. apply Permutation_sym.
    eapply Permutation_trans; [apply Permutation_skip, Permutation_swap|].
    eapply Permutation_trans; [apply Permutation_swap|].
    apply Permutation_skip, Permutation_swap. }
  split; [exact Hnd|]. split; [exact Hperm|].
  apply (verify_order_independent (H := node_ascii)); try done.
  - exact codepointCompare_trans.
  - exact codepointCompare_total.
  - intros a b _ _. apply codepointCompare_antisym.
Defined.




(** C10, witness: [auth_date=abc] with a matching hash is accepted. *)
Lemma malformed_auth_date_not_expired_witness :
  verifyTelegramInitData (H := node_ascii)
    "auth_date=abc&hash=73f8546d4d5deb1fa3a6e03c2a75eb7b4e014815d0b2d824d7a6ece29edfede6"
    (Some "12345:TOKEN"%string) 86400 1700000000 = VOk
  ∧ ∀ d, verifyTelegramInitData (H := node_ascii)
      "auth_date=abc&hash=73f8546d4d5deb1fa3a6e03c2a75eb7b4e014815d0b2d824d7a6ece29edfede6"
      (Some "12345:TOKEN"%string) 86400 1700000000
    ≠ VFail "auth_date_expired" d.
Proof.
  split; [vm_compute; reflexivity|].
  apply (malformed_auth_date_not_expired (H := node_ascii)
           "auth_date=abc&hash=73f8546d4d5deb1fa3a6e03c2a75eb7b4e014815d0b2d824d7a6ece29edfede6"
           (Some "12345:TOKEN"%string) 86400 1700000000 "abc").
  - vm_compute; reflexivity.
  - right. vm_compute; reflexivity.
Defined.

(** C4, counterexample: a correctly signed payload without a [user]
    field is accepted by the verifier; the rejection comes from the
    middleware, with the error [No user] and no reason code. *)
Lemma missing_user_has_no_reason :
  verifyTelegramInitData (H := node_ascii)
    "auth_date=1700000000&hash=ae07f472d7e059fc5b61d050365e837a310dadb1b38bfa0f8db1fb5faab19852"
    (Some "12345:TOKEN"%string) default_maxAgeSec 1700000100 = VOk
  ∧ params_get
      (URLSearchParams (Host := node_ascii)
         "auth_date=1700000000&hash=ae07f472d7e059fc5b61d050365e837a310dadb1b38bfa0f8db1fb5faab19852")
      "user" = None
  ∧ requireUser (H := node_ascii)
      (Some "auth_date=1700000000&hash=ae07f472d7e059fc5b61d050365e837a310dadb1b38bfa0f8db1fb5faab19852"%string)
      (Some "12345:TOKEN"%string) 1700000100
    = Rejected 401 "No user" None.
Proof. repeat split; vm_compute; reflexivity. Qed.

(** C4, witness: the id handed on is the one inside the [user] field. *)
Lemma requireUser_after_verify_witness :
  requireUser (H := node_ascii)
    (Some "auth_date=1700000000&user=%7B%22id%22%3A42%7D&hash=df15d017269abf02a9aeba87f2e792eb7c9f75b91a4e78181a47c42b0c49d76a"%string)
    (Some "12345:TOKEN"%string) 1700000100
  = Next (JNum (JFin (inject_Z 42))).
Proof.
  eapply (proj1 (proj2 (requireUser_after_verify (H := node_ascii)
           "auth_date=1700000000&user=%7B%22id%22%3A42%7D&hash=df15d017269abf02a9aeba87f2e792eb7c9f75b91a4e78181a47c42b0c49d76a"
           (Some "12345:TOKEN"%string) 1700000100 _)));
    try (vm_compute; reflexivity).
  Unshelve. all: try (vm_compute; reflexivity). vm_compute. discriminate.
Defined.

(** ** List facts *)


Lemma filter_none {A} (P : A → Prop) `{!∀ x, Decision (P x)} l :
  Forall (λ x, ¬ P x) l → filter P l = [].
Proof.
  induction 1 as [|x l Hx _ IH]; [done|].
  by rewrite filter_cons_False.
Qed.





(** ** The [byExercise] map *)

Lemma group_by_exercise_foldl (m : gmap nat (list set_entry)) sets k :
  default [] (foldl (λ m x, <[exercise_id x :=
                                default [] (m !! exercise_id x) ++ [x]]> m)
                    m sets !! k)
  = default [] (m !! k) ++ filter (λ x, exercise_id x = k) sets.
Proof.
  revert m. induction sets as [|x sets IH]; intros m; simpl.
  - by rewrite app_nil_r.
  - rewrite IH, filter_cons. destruct (decide (exercise_id x = k)) as [->|Hne].
    + rewrite lookup_insert_eq. simpl. by rewrite <- app_assoc.
    + by rewrite lookup_insert_ne.
Qed.

Lemma group_by_exercise_lookup sets k :
  default [] (group_by_exercise sets !! k)
  = filter (λ x, exercise_id x = k) sets.
Proof.
  unfold group_by_exercise. by rewrite group_by_exercise_foldl, lookup_empty.
Qed.

(** ** The read handler *)

Lemma leb_total (a b : nat) : (a <=? b) = false → (b <=? a) = true.
Proof. intros ?%Nat.leb_gt. apply Nat.leb_le. lia. Qed.

Lemma leb_trans (a b c : nat) :
  (a <=? b) = true → (b <=? c) = true → (a <=? c) = true.
Proof. rewrite !Nat.leb_le. lia. Qed.

(** The read handler, call by call. *)
Lemma get_workouts_unfold (f : faults) s uid date :
  date ≠ EmptyString →
  get_workouts f s uid (Some date)
  = match f FetchWorkout with
    | Some wErr => GetError 500 wErr
    | None =>
        match maybeSingle (select_workouts s uid date) with
        | inl wErr => GetError 500 wErr
        | inr None => GetNull
        | inr (Some w) =>
            match f FetchExercises with
            | Some exErr => GetError 500 exErr
            | None =>
                match f FetchSets with
                | Some sErr => GetError 500 sErr
                | None => GetOk (workout_view_of s w)
                end
            end
        end
    end.
Proof.
  intros Hd. unfold get_workouts. rewrite (is_empty_false _ Hd).
  destruct (f FetchWorkout); [done|].
  destruct (maybeSingle _) as [|[w|]]; [done| |done].
  destruct (f FetchExercises); [done|]. destruct (f FetchSets); [done|].
  cbv zeta. unfold workout_view_of. do 2 f_equal.
  apply list_fmap_ext. intros i e Hi.
  f_equal. rewrite group_by_exercise_lookup.
  rewrite filter_sort_by by eauto using leb_total, leb_trans.
  f_equal. unfold select_sets. rewrite list_filter_filter_l; [done|].
  intros x ->. unfold set_filter_ids.
  apply list_elem_of_lookup_2 in Hi.
  rewrite decide_False.
  - by apply list_elem_of_fmap_2.
  - rewrite length_fmap. intros Hlen%nil_length_inv. rewrite Hlen in Hi.
    by apply elem_of_nil in Hi.
Qed.

(** ** Store operations *)

Lemma filter_key_singleton {A K} `{EqDecision K} (key : A → K) (l : list A) x :
  NoDup (key <$> l) → x ∈ l → filter (λ y, key y = key x) l = [x].
Proof.
  induction l as [|y l IH]; csimpl; intros Hnd Hin.
  - by apply elem_of_nil in Hin.
  - apply NoDup_cons in Hnd as [Hy Hnd].
    apply elem_of_cons in Hin as [->|Hin].
    + rewrite filter_cons_True by done. f_equal.
      apply filter_none, Forall_forall. intros z Hz Hkey.
      apply Hy. rewrite <- Hkey. by apply list_elem_of_fmap_2.
    + rewrite filter_cons_False; [by apply IH|].
      intros Hkey. apply Hy. rewrite Hkey. by apply list_elem_of_fmap_2.
Qed.

Lemma NoDup_fmap_inj_on {A K} `{EqDecision K} (key : A → K) (l : list A) x y :
  NoDup (key <$> l) → x ∈ l → y ∈ l → key y = key x → y = x.
Proof.
  intros Hnd Hx Hy Hkey.
  assert (y ∈ filter (λ z, key z = key x) l) as Hin
    by by apply list_elem_of_filter.
  rewrite filter_key_singleton in Hin by done.
  by apply list_elem_of_singleton in Hin.
Qed.

Lemma filter_fmap_stable {A} (P : A → Prop) `{!∀ x, Decision (P x)}
    (f : A → A) (l : list A) :
  (∀ x, P (f x) ↔ P x) → (∀ x, P x → f x = x) →
  filter P (f <$> l) = filter P l.
Proof.
  intros HP Hf. induction l as [|x l IH]; csimpl; [done|].
  rewrite !filter_cons. destruct (decide (P x)) as [Hx|Hx].
  - rewrite decide_True by by apply HP. by rewrite IH, Hf.
  - rewrite decide_False by by rewrite HP. done.
Qed.

Lemma select_workouts_unique s uid d w :
  store_wf s → w ∈ workouts s → user_id w = uid → workout_date w = d →
  select_workouts s uid d = [w].
Proof.
  intros Hwf Hin <- <-. unfold select_workouts.
  rewrite <- (filter_key_singleton (λ w, (user_id w, workout_date w))
                (workouts s) w); [|apply Hwf|done].
  apply list_filter_iff. intros x. simpl. split; [by intros [-> ->]|].
  by intros [= -> ->].
Qed.

Lemma select_workouts_elem s uid d w :
  w ∈ select_workouts s uid d ↔
  w ∈ workouts s ∧ user_id w = uid ∧ workout_date w = d.
Proof. unfold select_workouts. rewrite list_elem_of_filter. tauto. Qed.

Lemma owned_not_foreign s uid u' wid :
  store_wf s → owned s uid wid → u' ≠ uid →
  wid ∉ w_id <$> tenant_workouts s u'.
Proof.
  intros Hwf (w & Hw & <- & Hu) Hne (w' & Hid & Hw')%list_elem_of_fmap.
  apply list_elem_of_filter in Hw' as [Hu' Hw'].
  assert (w' = w) as ->; [|congruence].
  eapply (NoDup_fmap_inj_on w_id); eauto. apply Hwf.
Qed.

(** *** upsert *)

Lemma upsert_workout_tables s uid d t n w s1 :
  upsert_workout s uid d t n = (w, s1) →
  workout_exercises s1 = workout_exercises s
  ∧ workout_sets s1 = workout_sets s
  ∧ next_id s ≤ next_id s1
  ∧ user_id w = uid ∧ workout_date w = d ∧ title w = t ∧ notes w = n.
Proof.
  unfold upsert_workout.
  destruct (select_workouts s uid d) as [|w0 ws]; intros [= <- <-]; simpl;
    repeat split; lia.
Qed.

Lemma upsert_workout_foreign s uid d t n w s1 u' :
  upsert_workout s uid d t n = (w, s1) → u' ≠ uid →
  tenant_workouts s1 u' = tenant_workouts s u'.
Proof.
  unfold upsert_workout, tenant_workouts. intros Hup Hne.
  destruct (select_workouts s uid d) as [|w0 ws]; injection Hup as <- <-; simpl.
  - rewrite filter_app, filter_cons_False, filter_nil, app_nil_r; [done|].
    simpl. congruence.
  - apply filter_fmap_stable.
    + intros x. destruct (decide _) as [[Hu _]|_]; simpl; [|done].
      by rewrite Hu.
    + intros x Hx. destruct (decide _) as [[Hu _]|_]; [congruence|done].
Qed.

Lemma upsert_workout_wf s uid d t n w s1 :
  store_wf s → upsert_workout s uid d t n = (w, s1) →
  store_wf s1 ∧ select_workouts s1 uid d = [w] ∧ w_id w < next_id s1
  ∧ (select_workouts s uid d = [] ∧ w_id w = next_id s
     ∨ ∃ w0, select_workouts s uid d = [w0] ∧ w_id w = w_id w0).
Proof.
  intros Hwf Hup. unfold upsert_workout in Hup.
  destruct (select_workouts s uid d) as [|w0 ws] eqn:Hsel;
    injection Hup as <- <-.
  - (* a new row *)
    assert ((uid, d) ∉ (λ w, (user_id w, workout_date w)) <$> workouts s)
      as Hkey.
    { intros (w' & [= Hu Hd] & Hw')%list_elem_of_fmap.
      assert (w' ∈ select_workouts s uid d) as Hin
        by by apply select_workouts_elem.
      rewrite Hsel in Hin. by apply elem_of_nil in Hin. }
    split; [|split; [|split; [simpl; lia|by left]]].
    + split; simpl.
      * lia.
      * rewrite fmap_app. apply NoDup_app. split; [apply Hwf|].
        split; [|apply NoDup_singleton].
        intros x (w' & -> & Hw')%list_elem_of_fmap Hx. csimpl in Hx.
        apply list_elem_of_singleton in Hx.
        pose proof (wf_workout_fresh s Hwf) as Hfresh.
        rewrite Forall_forall in Hfresh. specialize (Hfresh _ Hw'). simpl in *. lia.
      * rewrite fmap_app. apply NoDup_app. split; [apply Hwf|].
        split; [|apply NoDup_singleton].
        intros x Hx Hx'. csimpl in Hx'.
        by apply list_elem_of_singleton in Hx' as ->.
      * apply Forall_app. split.
        -- eapply Forall_impl; [apply Hwf|]. simpl. lia.
        -- apply Forall_singleton. simpl. lia.
      * apply Hwf.
      * eapply Forall_impl; [apply Hwf|]. simpl. lia.
      * eapply Forall_impl; [apply Hwf|]. simpl. lia.
    + unfold select_workouts in *. simpl.
      rewrite filter_app, Hsel, filter_cons_True, filter_nil; done.
  - (* the row of [(uid, d)] *)
    assert (w0 ∈ workouts s ∧ user_id w0 = uid ∧ workout_date w0 = d)
      as (Hw0 & Hu & Hd).
    { apply select_workouts_elem. rewrite Hsel. left. }
    assert (select_workouts s uid d = [w0]) as Hone
      by by apply select_workouts_unique.
    set (upd := λ x : workout,
           if decide (user_id x = uid ∧ workout_date x = d)
           then {| w_id := w_id x; user_id := uid; workout_date := d;
                   title := t; notes := n |}
           else x).
    assert (∀ x, w_id (upd x) = w_id x) as Hid
      by (intros x; unfold upd; by destruct (decide _)).
    assert (∀ x, (user_id (upd x), workout_date (upd x))
                 = (user_id x, workout_date x)) as Hkey.
    { intros x. unfold upd. by destruct (decide _) as [[-> ->]|_]. }
    pose proof (wf_workout_fresh s Hwf) as Hfresh.
    split; [|split; [|split]].
    + split; simpl; try apply Hwf.
      * rewrite <- list_fmap_compose.
        erewrite list_fmap_ext; [apply Hwf|]. intros i x _. apply Hid.
      * rewrite <- list_fmap_compose.
        erewrite list_fmap_ext; [apply Hwf|]. intros i x _. apply Hkey.
      * apply Forall_fmap. eapply Forall_impl; [exact Hfresh|].
        intros x Hx. simpl. by rewrite Hid.
    + unfold select_workouts in *. simpl.
      assert (∀ l : list workout,
                filter (λ w, user_id w = uid ∧ workout_date w = d) (upd <$> l)
                = upd <$> filter (λ w, user_id w = uid ∧ workout_date w = d) l)
        as Hcomm.
      { induction l as [|x l IH]; csimpl; [done|]. rewrite !filter_cons.
        pose proof (Hkey x) as [= Hu' Hd']. rewrite Hu', Hd'.
        destruct (decide _); csimpl; by rewrite IH. }
      rewrite Hcomm, Hone. csimpl. unfold upd. by rewrite decide_True.
    + simpl. rewrite Forall_forall in Hfresh. by apply Hfresh.
    + right. exists w0. split; [congruence|done].
Qed.

Lemma owned_upsert s uid d t n w s1 :
  upsert_workout s uid d t n = (w, s1) → owned s1 uid (w_id w).
Proof.
  unfold upsert_workout. intros Hup. exists w.
  destruct (select_workouts s uid d) as [|w0 ws] eqn:Hsel;
    injection Hup as <- <-; simpl.
  - split; [|done]. apply elem_of_app. right. left.
  - split; [|done].
    assert (w0 ∈ workouts s ∧ user_id w0 = uid ∧ workout_date w0 = d)
      as (Hw0 & Hu & Hd).
    { apply select_workouts_elem. rewrite Hsel. left. }
    apply list_elem_of_fmap. exists w0. split; [|done].
    by rewrite decide_True.
Qed.

(** *** deletes *)

Lemma Forall_filter_keep {A} (P Q : A → Prop) `{!∀ x, Decision (Q x)} l :
  Forall P l → Forall P (filter Q l).
Proof.
  rewrite !Forall_forall. intros HP x [_ Hx]%list_elem_of_filter. by apply HP.
Qed.

Lemma NoDup_fmap_filter {A B} (f : A → B) (Q : A → Prop)
    `{!∀ x, Decision (Q x)} l :
  NoDup (f <$> l) → NoDup (f <$> filter Q l).
Proof.
  intros Hnd. eapply sublist_NoDup; [exact Hnd|].
  apply fmap_sublist, sublist_filter.
Qed.

Lemma delete_sets_wf s ids : store_wf s → store_wf (delete_sets s ids).
Proof.
  intros Hwf. split; simpl; try apply Hwf.
  apply Forall_filter_keep, Hwf.
Qed.

Lemma delete_exercises_wf s wid :
  store_wf s → store_wf (delete_exercises s wid).
Proof.
  intros Hwf. split; simpl; try apply Hwf.
  - apply NoDup_fmap_filter, Hwf.
  - apply Forall_filter_keep, Hwf.
Qed.

(** The exercises of a workout of [uid] are not exercises of another
    tenant, and neither are their ids. *)
Lemma foreign_exercise_ids s uid u' wid id :
  store_wf s → owned s uid wid → u' ≠ uid →
  id ∈ e_id <$> select_exercises s wid →
  id ∉ e_id <$> tenant_exercises s u'.
Proof.
  intros Hwf Hown Hne (e & -> & He)%list_elem_of_fmap
    (e' & Hid & He')%list_elem_of_fmap.
  apply list_elem_of_filter in He as [Hwid He].
  apply list_elem_of_filter in He' as [Hw' He'].
  assert (e' = e) as ->.
  { eapply (NoDup_fmap_inj_on e_id); eauto. apply Hwf. }
  rewrite Hwid in Hw'. by eapply owned_not_foreign.
Qed.

Lemma tenant_workouts_ext s s' u :
  workouts s' = workouts s → tenant_workouts s' u = tenant_workouts s u.
Proof. unfold tenant_workouts. by intros ->. Qed.

Lemma tenant_exercises_ext s s' u :
  workouts s' = workouts s → workout_exercises s' = workout_exercises s →
  tenant_exercises s' u = tenant_exercises s u.
Proof. unfold tenant_exercises, tenant_workouts. by intros -> ->. Qed.

Lemma delete_sets_foreign s uid u' wid ids :
  store_wf s → owned s uid wid → u' ≠ uid →
  ids ⊆ e_id <$> select_exercises s wid →
  tenant_rows (delete_sets s ids) u' = tenant_rows s u'.
Proof.
  intros Hwf Hown Hne Hids. unfold tenant_rows.
  rewrite (tenant_workouts_ext s) by done.
  rewrite (tenant_exercises_ext s) by done.
  f_equal. unfold tenant_sets.
  rewrite (tenant_exercises_ext s (delete_sets s ids)) by done. simpl.
  apply list_filter_filter_l. intros x Hx Hin.
  eapply foreign_exercise_ids; eauto.
Qed.

Lemma delete_exercises_foreign s uid u' wid :
  store_wf s → owned s uid wid → u' ≠ uid →
  tenant_rows (delete_exercises s wid) u' = tenant_rows s u'.
Proof.
  intros Hwf Hown Hne.
  assert (tenant_exercises (delete_exercises s wid) u' = tenant_exercises s u')
    as Hex.
  { unfold tenant_exercises.
    rewrite (tenant_workouts_ext s) by done. simpl.
    apply list_filter_filter_l. intros e He Heq. rewrite Heq in He.
    by eapply owned_not_foreign. }
  unfold tenant_rows, tenant_sets.
  by rewrite Hex, (tenant_workouts_ext s).
Qed.

(** *** inserts *)

Lemma insert_exercises_ids s rows :
  e_id <$> (insert_exercises s rows).1 = seq (next_id s) (length rows).
Proof.
  unfold insert_exercises. simpl. rewrite fmap_imap.
  etrans; [|apply list_fmap_id].
  rewrite <- (imap_seq rows id (next_id s)). by apply imap_ext.
Qed.

Lemma insert_exercises_wf s rows :
  store_wf s → Forall (λ r, ne_workout_id r < next_id s) rows →
  store_wf (insert_exercises s rows).2.
Proof.
  intros Hwf Hrows.
  pose proof (insert_exercises_ids s rows) as Hids.
  unfold insert_exercises in *. simpl in *. split; simpl; try apply Hwf.
  - pose proof (wf_next s Hwf). lia.
  - eapply Forall_impl; [apply Hwf|]. simpl. lia.
  - rewrite fmap_app, Hids. apply NoDup_app.
    split; [apply Hwf|]. split; [|apply NoDup_seq].
    intros id (e & -> & He)%list_elem_of_fmap Hin%elem_of_seq.
    pose proof (wf_exercise_fresh s Hwf) as Hfresh.
    rewrite Forall_forall in Hfresh. specialize (Hfresh _ He). simpl in *. lia.
  - apply Forall_app. split.
    + eapply Forall_impl; [apply Hwf|]. simpl. lia.
    + apply Forall_forall. intros e (i & r & -> & Hi)%elem_of_lookup_imap.
      simpl. rewrite Forall_forall in Hrows.
      pose proof (Hrows r (list_elem_of_lookup_2 _ _ _ Hi)).
      apply lookup_lt_Some in Hi. lia.
  - eapply Forall_impl; [apply Hwf|]. simpl. lia.
Qed.

Lemma insert_exercises_foreign s uid u' wid rows :
  store_wf s → owned s uid wid → u' ≠ uid →
  Forall (λ r, ne_workout_id r = wid) rows →
  tenant_rows (insert_exercises s rows).2 u' = tenant_rows s u'.
Proof.
  intros Hwf Hown Hne Hrows.
  assert (tenant_exercises (insert_exercises s rows).2 u'
          = tenant_exercises s u') as Hex.
  { unfold tenant_exercises.
    rewrite (tenant_workouts_ext s) by done. simpl.
    rewrite filter_app, (filter_none _ (imap _ _)), app_nil_r; [done|].
    apply Forall_forall. intros e (i & r & -> & Hi)%elem_of_lookup_imap.
    simpl. rewrite Forall_forall in Hrows.
    rewrite (Hrows r (list_elem_of_lookup_2 _ _ _ Hi)).
    by eapply owned_not_foreign. }
  unfold tenant_rows, tenant_sets.
  by rewrite Hex, (tenant_workouts_ext s).
Qed.

Lemma insert_sets_wf s rows :
  store_wf s → Forall (λ r, 0 < ns_exercise_id r < next_id s) rows →
  store_wf (insert_sets s rows).
Proof.
  intros Hwf Hrows. split; simpl; try apply Hwf.
  - pose proof (wf_next s Hwf). lia.
  - eapply Forall_impl; [apply Hwf|]. simpl. lia.
  - eapply Forall_impl; [apply Hwf|]. simpl. lia.
  - apply Forall_app. split.
    + eapply Forall_impl; [apply Hwf|]. simpl. lia.
    + apply Forall_forall. intros e (i & r & -> & Hi)%elem_of_lookup_imap.
      simpl. rewrite Forall_forall in Hrows.
      pose proof (Hrows r (list_elem_of_lookup_2 _ _ _ Hi)). lia.
Qed.

Lemma insert_sets_foreign s uid u' wid rows :
  store_wf s → owned s uid wid → u' ≠ uid →
  Forall (λ r, ns_exercise_id r ∈ e_id <$> select_exercises s wid) rows →
  tenant_rows (insert_sets s rows) u' = tenant_rows s u'.
Proof.
  intros Hwf Hown Hne Hrows. unfold tenant_rows.
  rewrite (tenant_workouts_ext s) by done.
  rewrite (tenant_exercises_ext s) by done.
  f_equal. unfold tenant_sets.
  rewrite (tenant_exercises_ext s (insert_sets s rows)) by done. simpl.
  rewrite filter_app, (filter_none _ (imap _ _)), app_nil_r; [done|].
  apply Forall_forall. intros x (i & r & -> & Hi)%elem_of_lookup_imap.
  simpl. rewrite Forall_forall in Hrows.
  eapply foreign_exercise_ids; eauto.
  apply Hrows. by eapply list_elem_of_lookup_2.
Qed.

Lemma upsert_workout_foreign_rows s uid d t n w s1 u' :
  upsert_workout s uid d t n = (w, s1) → u' ≠ uid →
  tenant_rows s1 u' = tenant_rows s u'.
Proof.
  intros Hup Hne.
  pose proof (upsert_workout_foreign _ _ _ _ _ _ _ _ Hup Hne) as Hw.
  apply upsert_workout_tables in Hup as (Hex & Hsets & _).
  unfold tenant_rows, tenant_sets, tenant_exercises. by rewrite Hw, Hex, Hsets.
Qed.

(** *** The rows the handler builds *)

Section RowFacts.
Context `{Host}.


Lemma mapM_imap_inv {A B} (f : nat → A → option B) (g : nat → A → B) l k :
  mapM id (imap f l) = Some k →
  (∀ i x y, l !! i = Some x → f i x = Some y → y = g i x) →
  k = imap g l.
Proof.
  revert f g k. induction l as [|x l IH]; intros f g k Hk Hfg.
  - by injection Hk as <-.
  - rewrite imap_cons in Hk. csimpl in Hk.
    destruct (f 0 x) as [y|] eqn:Hy; [|done]. csimpl in Hk.
    destruct (mapM id (imap (f ∘ S) l)) as [k'|] eqn:Hk'; [|done].
    injection Hk as <-. rewrite imap_cons. f_equal.
    + by apply (Hfg 0 x y).
    + apply (IH (f ∘ S)); [done|]. intros i z y' Hi. by apply (Hfg (S i)).
Qed.


Lemma exRow_inv wid i e r : exRow wid i e = Some r → r = ex_row wid i e.
Proof. destruct e; simpl; by intros [= <-]. Qed.


Lemma setRow_inv exId j s r : setRow exId j s = Some r → r = set_row exId j s.
Proof. destruct s; simpl; by intros [= <-]. Qed.

Lemma exRows_inv wid exercises rows :
  exRows wid exercises = Some rows → rows = imap (ex_row wid) exercises.
Proof.
  intros Hrows. eapply mapM_imap_inv; [exact Hrows|].
  intros i e r _. apply exRow_inv.
Qed.


(** Every row of [setRows] refers to an inserted exercise. *)
Lemma setRows_inv exercises insertedEx srows :
  setRows exercises insertedEx = Some srows →
  Forall (λ r, ns_exercise_id r ∈ e_id <$> insertedEx) srows.
Proof.
  unfold setRows. intros Hs.
  destruct (mapM id _) as [blocks|] eqn:Hblocks; [|done].
  injection Hs as <-. apply Forall_concat.
  apply mapM_Some_1 in Hblocks.
  apply Forall_forall. intros block Hblock.
  apply list_elem_of_lookup in Hblock as [i Hi].
  destruct (Forall2_lookup_r _ _ _ _ _ Hblocks Hi) as (o & Ho & Hob).
  apply list_lookup_imap_Some in Ho as (ex & Hex & ->). simpl in Hob.
  destruct (insertedEx !! i) as [row|] eqn:Hrow; [|done].
  rewrite (mapM_imap_inv _ (set_row (e_id row)) _ _ Hob).
  - apply Forall_forall. intros r (j & s & -> & _)%elem_of_lookup_imap.
    simpl. apply list_elem_of_fmap_2. by eapply list_elem_of_lookup_2.
  - intros j s r _. apply setRow_inv.
Qed.


End RowFacts.

(** ** The replace handler and the other tenants *)

Lemma isolated_refl uid s : store_wf s → isolated uid s s.
Proof. by split. Qed.

Lemma isolated_trans uid s1 s2 s3 :
  isolated uid s1 s2 → isolated uid s2 s3 → isolated uid s1 s3.
Proof.
  intros [_ H12] [Hwf H23]. split; [done|].
  intros u' Hu. by rewrite H23, H12.
Qed.

Lemma owned_ext s s' uid wid :
  workouts s' = workouts s → owned s uid wid → owned s' uid wid.
Proof. unfold owned. by intros ->. Qed.

Section ReplaceFacts.
Context `{Host}.

(** The state after the fetch of the old exercises and the two deletes. *)
Lemma cleared_isolated (f : faults) s1 uid wid :
  store_wf s1 → owned s1 uid wid →
  let oldEx := match f FetchOldExercises with
               | Some _ => None
               | None => Some (select_exercises s1 wid)
               end in
  let oldIds := e_id <$> default [] oldEx in
  let s2 := if decide (length oldIds = 0) then s1
            else match f DeleteSets with
                 | Some _ => s1
                 | None => delete_sets s1 oldIds
                 end in
  let s3 := match f DeleteExercises with
            | Some _ => s2
            | None => delete_exercises s2 wid
            end in
  isolated uid s1 s3 ∧ workouts s3 = workouts s1 ∧ next_id s3 = next_id s1.
Proof.
  intros Hwf Hown oldEx oldIds s2 s3.
  assert (oldIds ⊆ e_id <$> select_exercises s1 wid) as Hold.
  { unfold oldIds, oldEx. destruct (f FetchOldExercises); simpl; [|done].
    apply list_subseteq_nil. }
  assert (isolated uid s1 s2 ∧ workouts s2 = workouts s1
          ∧ next_id s2 = next_id s1) as ([Hwf2 H12] & Hw2 & Hn2).
  { unfold s2. destruct (decide _); [by split; [apply isolated_refl|]|].
    destruct (f DeleteSets); [by split; [apply isolated_refl|]|].
    split; [|done]. split; [by apply delete_sets_wf|].
    intros u' Hu. by eapply delete_sets_foreign. }
  assert (owned s2 uid wid) as Hown2 by by eapply owned_ext.
  unfold s3. destruct (f DeleteExercises); [by split; [split|]|].
  split; [|by split]. split; [by apply delete_exercises_wf|].
  intros u' Hu. rewrite <- H12 by done. by eapply delete_exercises_foreign.
Qed.

(** Whatever the store answers and whatever the input is, a replace leaves
    the store well formed and does not touch the rows of other tenants. *)
Lemma post_workouts_isolated (f : faults) s uid body r s' :
  store_wf s → post_workouts f s uid body = (r, s') → isolated uid s s'.
Proof.
  intros Hwf. unfold post_workouts.
  destruct (req_workout_date body) as [date|];
    [|intros [= _ <-]; by apply isolated_refl].
  destruct (is_empty date); [intros [= _ <-]; by apply isolated_refl|].
  destruct (req_exercises body) as [[| | | |exercises|]|];
    try (intros [= _ <-]; by apply isolated_refl).
  destruct (f UpsertWorkout); [intros [= _ <-]; by apply isolated_refl|].
  destruct (upsert_workout _ _ _ _ _) as [w s1] eqn:Hup.
  destruct (upsert_workout_wf _ _ _ _ _ _ _ Hwf Hup) as (Hwf1 & Hsel1 & Hlt1 & _).
  pose proof (owned_upsert _ _ _ _ _ _ _ Hup) as Hown1.
  assert (isolated uid s s1) as His1.
  { split; [done|]. intros u' Hu. by eapply upsert_workout_foreign_rows. }
  destruct (cleared_isolated f s1 uid (w_id w) Hwf1 Hown1)
    as (His3 & Hw3 & Hn3).
  cbv zeta in His3, Hw3, Hn3 |- *.
  match type of His3 with isolated _ _ ?s => set (s3 := s) in * end.
  assert (isolated uid s s3) as His3' by by eapply isolated_trans.
  assert (owned s3 uid (w_id w)) as Hown3 by by eapply owned_ext.
  destruct (exRows (w_id w) exercises) as [rows|] eqn:Hrows;
    [|by intros [= _ <-]].
  destruct (f InsertExercises); [by intros [= _ <-]|].
  apply exRows_inv in Hrows.
  set (ins := (insert_exercises s3 rows).1).
  set (s4 := (insert_exercises s3 rows).2).
  change (insert_exercises s3 rows) with (ins, s4). cbv beta iota.
  assert (store_wf s4) as Hwf4.
  { apply insert_exercises_wf; [apply His3|]. rewrite Hrows.
    apply Forall_forall. intros r0 (i & e & -> & _)%elem_of_lookup_imap.
    simpl. lia. }
  assert (isolated uid s s4) as His4.
  { eapply isolated_trans; [exact His3'|]. split; [done|].
    intros u' Hu. eapply insert_exercises_foreign; eauto; [apply His3|].
    rewrite Hrows. apply Forall_forall.
    by intros r0 (i & e & -> & _)%elem_of_lookup_imap. }
  destruct (setRows exercises ins) as [srows|] eqn:Hsrows;
    [|by intros [= _ <-]].
  destruct (decide (length srows = 0)); [by intros [= _ <-]|].
  destruct (f InsertSets); [by intros [= _ <-]|].
  intros [= _ <-]. apply setRows_inv in Hsrows.
  assert (∀ id, id ∈ e_id <$> ins →
            id ∈ e_id <$> select_exercises s4 (w_id w)
            ∧ 0 < id < next_id s4) as Hins.
  { intros id Hid. split.
    - apply list_elem_of_fmap in Hid as (e & -> & He).
      apply list_elem_of_fmap_2, list_elem_of_filter. split.
      + apply elem_of_lookup_imap in He as (i & r0 & -> & Hi). simpl.
        rewrite Hrows in Hi.
        by apply list_lookup_imap_Some in Hi as (e & _ & ->).
      + apply elem_of_app. by right.
    - unfold ins in Hid. rewrite insert_exercises_ids in Hid.
      apply elem_of_seq in Hid. simpl.
      pose proof (wf_next s3 (proj1 His3)). lia. }
  eapply isolated_trans; [exact His4|]. split.
  - apply insert_sets_wf; [done|].
    eapply Forall_impl; [exact Hsrows|]. intros r0 Hr. by apply Hins.
  - intros u' Hu.
    apply (insert_sets_foreign s4 uid u' (w_id w));
      [done|by eapply (owned_ext s3)|done|].
    eapply Forall_impl; [exact Hsrows|]. intros r0 Hr. by apply Hins.
Qed.

End ReplaceFacts.

(** ** The read handler and the other tenants *)

Lemma select_workouts_tenant s uid d :
  select_workouts s uid d
  = filter (λ w, workout_date w = d) (tenant_workouts s uid).
Proof.
  unfold select_workouts, tenant_workouts. rewrite list_filter_filter.
  apply list_filter_iff. intros w. tauto.
Qed.

Lemma select_exercises_tenant s uid w :
  w ∈ tenant_workouts s uid →
  select_exercises s (w_id w)
  = filter (λ e, workout_id e = w_id w) (tenant_exercises s uid).
Proof.
  intros Hw. unfold select_exercises, tenant_exercises.
  rewrite list_filter_filter_l; [done|].
  intros e ->. by apply list_elem_of_fmap_2.
Qed.

Lemma sets_of_exercise_tenant s uid e :
  e ∈ tenant_exercises s uid →
  filter (λ x, exercise_id x = e_id e) (workout_sets s)
  = filter (λ x, exercise_id x = e_id e) (tenant_sets s uid).
Proof.
  intros He. unfold tenant_sets. rewrite list_filter_filter_l; [done|].
  intros x ->. by apply list_elem_of_fmap_2.
Qed.

Lemma workout_view_of_tenant s1 s2 uid w :
  tenant_rows s1 uid = tenant_rows s2 uid →
  w ∈ tenant_workouts s1 uid →
  workout_view_of s1 w = workout_view_of s2 w.
Proof.
  intros [= Hw He Hs] Hin. unfold workout_view_of.
  rewrite (select_exercises_tenant s1 uid), (select_exercises_tenant s2 uid)
    by by rewrite <- ?Hw.
  rewrite He. f_equal. apply list_fmap_ext. intros i e Hi. f_equal.
  assert (e ∈ tenant_exercises s2 uid) as Hin2.
  { apply list_elem_of_lookup_2 in Hi. rewrite elem_of_sort_by in Hi.
    by apply list_elem_of_filter in Hi as [_ Hi]. }
  rewrite (sets_of_exercise_tenant s1 uid), (sets_of_exercise_tenant s2 uid)
    by by rewrite ?He.
  by rewrite Hs.
Qed.

(** The answer of a read depends on the rows of the caller only. *)
Lemma get_workouts_tenant (f : faults) s1 s2 uid date :
  tenant_rows s1 uid = tenant_rows s2 uid →
  get_workouts f s1 uid date = get_workouts f s2 uid date.
Proof.
  intros Hrows. destruct date as [date|]; [|done].
  destruct (decide (date = EmptyString)) as [->|Hd]; [done|].
  rewrite !get_workouts_unfold by done.
  rewrite !select_workouts_tenant.
  assert (tenant_workouts s1 uid = tenant_workouts s2 uid) as Hw
    by by injection Hrows.
  rewrite <- Hw.
  destruct (filter _ (tenant_workouts s1 uid)) as [|w [|w' ws]] eqn:Hsel;
    simpl; try done.
  rewrite (workout_view_of_tenant s1 s2 uid); [done..|].
  assert (w ∈ filter (λ w, workout_date w = date) (tenant_workouts s1 uid))
    as Hin by (rewrite Hsel; left).
  by apply list_elem_of_filter in Hin as [_ Hin].
Qed.

(** ** A replace followed by a read *)



Section ReplaceRead.
Context `{Host}.



End ReplaceRead.

Section ReplaceRead2.
Context `{Host}.



End ReplaceRead2.

(** ** The claims about the store *)







(** C8: when the store answers, a read of a pair without a workout row is
    [null]; a read of a workout without exercise rows is that workout
    with no exercises, and on a well-formed store the set query it sends,
    filtered by the sentinel id, matches no row. *)
Theorem read_absent_or_empty (f : faults) s uid date :
  date ≠ EmptyString → f FetchWorkout = None →
  ((∀ w, w ∈ workouts s → user_id w = uid → workout_date w ≠ date) →
   get_workouts f s uid (Some date) = GetNull)
  ∧ (∀ w, store_wf s → f FetchExercises = None → f FetchSets = None →
          w ∈ workouts s → user_id w = uid → workout_date w = date →
          (∀ e, e ∈ workout_exercises s → workout_id e ≠ w_id w) →
          get_workouts f s uid (Some date)
          = GetOk {| v_workout := w; v_exercises := [] |}
          ∧ select_sets s (set_filter_ids []) = []).
Proof.
  intros Hd Hf. split.
  - intros Hnone. rewrite get_workouts_unfold, Hf by done.
    assert (select_workouts s uid date = []) as ->; [|done].
    apply filter_none, Forall_forall. intros w Hw [Hu Hdt]. by eapply Hnone.
  - intros w Hwf Hf2 Hf3 Hw Hu Hdt Hnoex.
    rewrite get_workouts_unfold, Hf by done.
    rewrite (select_workouts_unique s uid date w) by done.
    simpl. rewrite Hf2, Hf3. split.
    + unfold workout_view_of.
      assert (select_exercises s (w_id w) = []) as ->; [|done].
      apply filter_none, Forall_forall. intros e He. by apply Hnoex.
    + unfold select_sets, set_filter_ids. simpl.
      apply filter_none. eapply Forall_impl; [apply (wf_set_refs s Hwf)|].
      intros x Hx Hin. simpl in Hx.
      apply list_elem_of_singleton in Hin. unfold sentinel_id in Hin. lia.
Qed.

Lemma post_workouts_owned `{Host} (f : faults) s uid body wid s' :
  post_workouts f s uid body = (PostOk wid, s') → owned s' uid wid.
Proof.
  unfold post_workouts.
  destruct (req_workout_date body) as [date|]; [|done].
  destruct (is_empty date); [done|].
  destruct (req_exercises body) as [[| | | |exercises|]|]; try done.
  destruct (f UpsertWorkout); [done|].
  destruct (upsert_workout _ _ _ _ _) as [w s1] eqn:Hup.
  pose proof (owned_upsert _ _ _ _ _ _ _ Hup) as Hown.
  cbv zeta.
  destruct (exRows _ _); [|done]. destruct (f InsertExercises); [done|].
  unfold insert_exercises. cbv beta iota.
  destruct (setRows _ _); [|done].
  assert (∀ s2 : store, workouts s2 = workouts s1 → owned s2 uid (w_id w))
    as Hext by (intros s2 Hs2; by eapply owned_ext).
  destruct (decide _); [|destruct (f InsertSets); [done|]];
    intros [= <- <-]; apply Hext; simpl;
    destruct (f DeleteExercises), (decide _), (f DeleteSets); done.
Qed.

(** C9: on a well-formed store and under every fault oracle, a replace by
    [uid] leaves the store well formed and leaves the workouts, exercises
    and sets of every other tenant as they were, and the workout it
    answers with belongs to [uid]; a read by [uid] depends on the rows of
    [uid] only and shows a workout of [uid]. *)
Theorem tenant_isolation `{Host} (f : faults) s uid :
  store_wf s →
  (∀ body r s',
     post_workouts f s uid body = (r, s') →
     store_wf s'
     ∧ (∀ u', u' ≠ uid → tenant_rows s' u' = tenant_rows s u')
     ∧ (∀ wid, r = PostOk wid → owned s' uid wid))
  ∧ (∀ s2 date,
       tenant_rows s2 uid = tenant_rows s uid →
       get_workouts f s2 uid date = get_workouts f s uid date)
  ∧ (∀ date view,
       get_workouts f s uid date = GetOk view →
       v_workout view ∈ tenant_workouts s uid
       ∧ view = workout_view_of s (v_workout view)).
Proof.
  intros Hwf. split; [|split].
  - intros body r s' Hp.
    destruct (post_workouts_isolated f s uid body r s' Hwf Hp) as [Hwf' Hiso].
    split; [done|]. split; [done|].
    intros wid ->. by eapply post_workouts_owned.
  - intros s2 date Hrows. by apply get_workouts_tenant.
  - intros [date|] view; [|done].
    destruct (decide (date = EmptyString)) as [->|Hd]; [done|].
    rewrite get_workouts_unfold by done.
    destruct (f FetchWorkout); [done|].
    destruct (select_workouts s uid date) as [|w [|w' ws]] eqn:Hsel;
      simpl; try done.
    destruct (f FetchExercises); [done|]. destruct (f FetchSets); [done|].
    intros [= <-]. simpl. split; [|done].
    assert (w ∈ select_workouts s uid date) as Hin by (rewrite Hsel; left).
    rewrite select_workouts_tenant in Hin.
    by apply list_elem_of_filter in Hin as [_ Hin].
Qed.

(** ** The store on concrete inputs *)

Lemma empty_store_wf : store_wf empty_store.
Proof.
  split; simpl; try (by constructor); lia.
Qed.



Lemma store_of_8_wf : store_wf store_of_8.
Proof.
  destruct (post_workouts_isolated (H := node_ascii) no_faults empty_store 8
              (body_of "2024-01-05" bench) _ _ empty_store_wf
              (surjective_pairing _)) as [Hwf _].
  exact Hwf.
Qed.


(** The only errors a replace reports are those of the upsert and of the
    two inserts. *)
Lemma post_workouts_reported `{Host} (f : faults) s uid body msg s' :
  post_workouts f s uid body = (PostError 500 msg, s') →
  f UpsertWorkout = Some msg ∨ f InsertExercises = Some msg
  ∨ f InsertSets = Some msg.
Proof.
  unfold post_workouts.
  destruct (req_workout_date body) as [date|]; [|done].
  destruct (is_empty date); [done|].
  destruct (req_exercises body) as [[| | | |exercises|]|]; try done.
  destruct (f UpsertWorkout) as [e1|]; [intros [= -> _]; by left|].
  destruct (upsert_workout _ _ _ _ _) as [w s1]. cbv zeta.
  destruct (exRows _ _); [|done].
  destruct (f InsertExercises) as [e2|]; [intros [= -> _]; right; by left|].
  unfold insert_exercises. cbv beta iota.
  destruct (setRows _ _); [|done]. destruct (decide _); [done|].
  destruct (f InsertSets) as [e3|]; [intros [= -> _]; right; by right|done].
Qed.

(** A failed upsert is reported and nothing is written. *)
Lemma post_workouts_upsert_fault `{Host} (f : faults) s uid body date
    exercises msg :
  req_workout_date body = Some date → date ≠ EmptyString →
  req_exercises body = Some (JArr exercises) →
  f UpsertWorkout = Some msg →
  post_workouts f s uid body = (PostError 500 msg, s).
Proof.
  intros Hdate Hd Hex Hf. unfold post_workouts.
  by rewrite Hdate, (is_empty_false _ Hd), Hex, Hf.
Qed.

(** C6, the failing run: the delete of the old sets fails, the handler
    goes on, answers [ok] and leaves the two old sets behind, attached to
    an exercise that is gone. *)
Theorem delete_failure_is_swallowed :
  delete_sets_fails DeleteSets = Some "boom"%string
  ∧ (post_workouts (H := node_ascii) delete_sets_fails store_of_8 8
       (body_of "2024-01-05" squat)).1 = PostOk 1
  ∧ e_id <$> workout_exercises
       (post_workouts (H := node_ascii) delete_sets_fails store_of_8 8
          (body_of "2024-01-05" squat)).2 = [5; 6]
  ∧ exercise_id <$> workout_sets
       (post_workouts (H := node_ascii) delete_sets_fails store_of_8 8
          (body_of "2024-01-05" squat)).2 = [2; 2; 5; 5].
Proof. repeat split; vm_compute; reflexivity. Qed.



(** C8, witness: nothing stored for user 7, and a workout of user 7 that
    was replaced with no exercises. *)
Lemma read_absent_or_empty_witness :
  get_workouts no_faults empty_store 7 (Some "2024-01-05"%string) = GetNull
  ∧ get_workouts no_faults store_of_7 7 (Some "2024-01-05"%string)
    = GetOk {| v_workout :=
                 {| w_id := 1; user_id := 7; workout_date := "2024-01-05";
                    title := JNull; notes := JNull |};
               v_exercises := [] |}
  ∧ select_sets store_of_7 (set_filter_ids []) = [].
Proof.
  destruct (read_absent_or_empty no_faults empty_store 7 "2024-01-05")
    as [Hnull _]; [done..|].
  destruct (read_absent_or_empty no_faults store_of_7 7 "2024-01-05")
    as [_ Hempty]; [done..|].
  split.
  - apply Hnull. by intros w Hw%elem_of_nil.
  - apply Hempty; try done.
    + destruct (post_workouts_isolated (H := node_ascii) no_faults empty_store 7
                  (body_of "2024-01-05" []) _ _ empty_store_wf
                  (surjective_pairing _)) as [Hwf _].
      exact Hwf.
    + vm_compute. left.
    + by intros e He%elem_of_nil.
Defined.

(** C9, witness: user 7 replaces a workout while the delete of the old
    sets fails; the rows of user 8 stay as they were. *)
Lemma tenant_isolation_witness :
  tenant_rows
    (post_workouts (H := node_ascii) delete_sets_fails store_of_8 7
       (body_of "2024-01-05" squat)).2 8
  = tenant_rows store_of_8 8.
Proof.
  destruct (tenant_isolation (H := node_ascii) delete_sets_fails store_of_8 7
              store_of_8_wf) as [Hpost _].
  destruct (Hpost (body_of "2024-01-05" squat) _ _ (surjective_pairing _))
    as (_ & Hrows & _).
  by apply Hrows.
Defined.
